(** * PennyPal group aggregate: membership, expense ledger and debt simplifier

    Shallow embedding of the instance methods of the Mongoose [groupSchema]
    (addMember, removeMember, addExpense, calculateDebts, settleDebt and the
    pre-save hook) together with the properties the specification states
    about them.

    Modelling conventions.
    - A JavaScript [Number] is an exact rational or [NaN]; rounding error of
      binary floating point and the infinities are not represented.  Every
      concrete ledger used below has amounts that are exactly representable
      in binary (integers or dyadic fractions), so the evaluation coincides
      with IEEE double arithmetic on them.
    - A plain JavaScript object used as a dictionary is an association list
      in insertion order (the order [Object.keys] enumerates; keys here are
      currency codes and 24-digit hexadecimal ids, never array indices).
    - A method is a computation over the document [this]: it returns either
      the thrown error or a value, together with the document as the method
      left it.  A normal return means the method reached its
      [return this.save()]; what the store then does with the document
      (schema validators, unique indexes) is outside the methods, and only
      the pre-save hook of this schema is applied.
    - The [while] loop of calculateDebts runs on fuel; the fuel given is shown
      to suffice for every group ([sweep_total], [calculateDebts_run]).
    - [new Date()] is the explicit parameter [now] (milliseconds).
    - Mongoose gives every pushed Debt sub-document a fresh [_id]; the
      generator is the counter [Group.oidCounter].
    - Fields of the schemas that no method below reads (group code, title,
      comments, invite code, archive flags) are left out of the records. *)

From Stdlib Require Import String ZArith QArith Qabs Qround List Bool Lia Lqa Permutation Sorted.
Import ListNotations.

Set Implicit Arguments.

Close Scope Q_scope.

(** ** JavaScript values *)

Module Js.

Inductive Number : Type :=
| NaN
| Num (q : Q).

Definition Qltb (x y : Q) : bool := negb (Qle_bool y x).

(** [ToNumber(undefined)] is [NaN]; a property read that finds nothing
    yields [undefined]. *)
Definition toNumber (v : option Number) : Number :=
  match v with
  | Some n => n
  | None => NaN
  end.

Definition add (a b : Number) : Number :=
  match a, b with
  | Num x, Num y => Num (x + y)%Q
  | _, _ => NaN
  end.

Definition sub (a b : Number) : Number :=
  match a, b with
  | Num x, Num y => Num (x - y)%Q
  | _, _ => NaN
  end.

(** [a > b] and [a < b]: every comparison with [NaN] is false. *)
Definition gt (a b : Number) : bool :=
  match a, b with
  | Num x, Num y => Qltb y x
  | _, _ => false
  end.

Definition lt (a b : Number) : bool :=
  match a, b with
  | Num x, Num y => Qltb x y
  | _, _ => false
  end.

(** [Math.abs]. *)
Definition abs (a : Number) : Number :=
  match a with
  | Num x => Num (Qabs x)
  | NaN => NaN
  end.

(** [Math.min] of two arguments. *)
Definition min (a b : Number) : Number :=
  match a, b with
  | Num x, Num y => Num (if Qle_bool x y then x else y)
  | _, _ => NaN
  end.

(** [Math.round(a * 100) / 100]; [Math.round] rounds half up. *)
Definition round2 (a : Number) : Number :=
  match a with
  | Num x => Num (Qmake (Qfloor (x * 100 + (1 # 2))%Q) 100)
  | NaN => NaN
  end.

(** [!v] for a property read: [undefined], [NaN] and zero are falsy. *)
Definition falsy (v : option Number) : bool :=
  match v with
  | None => true
  | Some NaN => true
  | Some (Num x) => Qeq_bool x 0
  end.

(** Plain objects as dictionaries, in insertion order. *)
Definition Obj (V : Type) : Type := list (string * V).

Fixpoint get {V : Type} (o : Obj V) (k : string) : option V :=
  match o with
  | [] => None
  | (k', v) :: o' => if String.eqb k' k then Some v else get o' k
  end.

(** [o[k] = v]: overwrite in place, or append a new property. *)
Fixpoint set {V : Type} (o : Obj V) (k : string) (v : V) : Obj V :=
  match o with
  | [] => [(k, v)]
  | (k', v') :: o' =>
      if String.eqb k' k then (k, v) :: o' else (k', v') :: set o' k v
  end.

Definition keys {V : Type} (o : Obj V) : list string := map fst o.

(** [Array.prototype.sort(cmp)]: stable; [a] stays before [b] unless
    [cmp(a, b) > 0]. *)
Section Sort.
Variable A : Type.
Variable cmp : A -> A -> Number.

Fixpoint insert (x : A) (l : list A) : list A :=
  match l with
  | [] => [x]
  | y :: l' => if gt (cmp y x) (Num 0) then x :: y :: l' else y :: insert x l'
  end.

Definition sort (l : list A) : list A :=
  fold_left (fun acc x => insert x acc) l [].
End Sort.

End Js.

Import Js.

(** ** The schemas *)

Inductive Role : Type := admin | member.

Inductive Status : Type := pending | settled | disputed.

Module Member.
Record t : Type := mk {
  userId : string;
  username : string;
  joinedAt : Z;
  role : Role;
  isActive : bool
}.
End Member.

Module Split.
Record t : Type := mk {
  userId : string;
  username : string;
  amount : Number
}.
End Split.

(** [billSplitItemSchema]. *)
Module Expense.
Record t : Type := mk {
  description : string;
  amount : Number;
  currency : string;
  paidBy : string;
  paidByUsername : string;
  splitBetween : list Split.t;
  category : string;
  receiptUrl : option string;
  notes : option string;
  date : Z
}.
End Expense.

Module Party.
Record t : Type := mk {
  userId : string;
  username : string
}.
End Party.

(** [debtSchema]; [plain] is the object literal that calculateDebts pushes,
    [t] the sub-document it becomes. *)
Module Debt.
Record plain : Type := mkPlain {
  p_from : Party.t;
  p_to : Party.t;
  p_amount : Number;
  p_currency : string;
  p_status : Status
}.

Record t : Type := mk {
  _id : nat;
  from : Party.t;
  to : Party.t;
  amount : Number;
  currency : string;
  status : Status;
  settledAt : option Z;
  settledBy : option string
}.

Definition cast (oid : nat) (p : plain) : t :=
  mk oid (p_from p) (p_to p) (p_amount p) (p_currency p) (p_status p) None None.
End Debt.

Module Group.
Record t : Type := mk {
  members : list Member.t;
  billSplit : list Expense.t;
  simplifyDebt : list Debt.t;
  defaultCurrency : string;
  allowMultipleCurrencies : bool;
  autoSimplifyDebts : bool;
  maxMembers : Z;
  oidCounter : nat
}.

Definition withMembers (g : t) (ms : list Member.t) : t :=
  mk ms (billSplit g) (simplifyDebt g) (defaultCurrency g)
     (allowMultipleCurrencies g) (autoSimplifyDebts g) (maxMembers g) (oidCounter g).

Definition withBillSplit (g : t) (es : list Expense.t) : t :=
  mk (members g) es (simplifyDebt g) (defaultCurrency g)
     (allowMultipleCurrencies g) (autoSimplifyDebts g) (maxMembers g) (oidCounter g).

Definition withSimplifyDebt (g : t) (ds : list Debt.t) : t :=
  mk (members g) (billSplit g) ds (defaultCurrency g)
     (allowMultipleCurrencies g) (autoSimplifyDebts g) (maxMembers g) (oidCounter g).

(** [this.simplifyDebt.push(p)]. *)
Definition pushDebt (g : t) (p : Debt.plain) : t :=
  mk (members g) (billSplit g) (simplifyDebt g ++ [Debt.cast (oidCounter g) p])
     (defaultCurrency g) (allowMultipleCurrencies g) (autoSimplifyDebts g)
     (maxMembers g) (S (oidCounter g)).
End Group.

(** ** Errors and the method monad *)

(** The errors the methods throw, named after the condition; [message]
    gives the text of each [new Error(...)].  [TypeError] is reading
    [.username] of [undefined]; [OutOfFuel] marks a [while] loop that did
    not finish within its fuel. *)
Inductive Error : Type :=
| AlreadyMember
| CapacityExceeded
| NotAMember
| OutstandingDebt
| CurrencyNotAllowed (allowed : string)
| InvalidSplitParticipant
| SplitMismatch
| DebtNotFound
| AlreadySettled
| TypeError
| OutOfFuel.

Definition message (e : Error) : string :=
  match e with
  | AlreadyMember => "User is already a member"
  | CapacityExceeded => "Group has reached maximum member limit"
  | NotAMember => "User is not a member of this group"
  | OutstandingDebt => "Cannot remove member with outstanding debts"
  | CurrencyNotAllowed c => "Only " ++ c ++ " is allowed in this group"
  | InvalidSplitParticipant => "Some users in split are not group members"
  | SplitMismatch => "Split amounts must add up to total amount"
  | DebtNotFound => "Debt not found"
  | AlreadySettled => "Debt is already settled"
  | TypeError => "Cannot read properties of undefined"
  | OutOfFuel => "(loop did not terminate)"
  end%string.

Definition M (A : Type) : Type := Group.t -> (Error + A) * Group.t.

Definition ret {A : Type} (a : A) : M A := fun this => (inr a, this).

Definition bind {A B : Type} (m : M A) (k : A -> M B) : M B :=
  fun this =>
    match m this with
    | (inr a, this') => k a this'
    | (inl e, this') => (inl e, this')
    end.

Definition throw {A : Type} (e : Error) : M A := fun this => (inl e, this).

Definition getThis : M Group.t := fun this => (inr this, this).

Definition modify (f : Group.t -> Group.t) : M unit := fun this => (inr tt, f this).

Definition when (c : bool) (m : M unit) : M unit := if c then m else ret tt.

Declare Scope method_scope.
Delimit Scope method_scope with method.
Notation "x <- c1 ;; c2" := (bind c1 (fun x => c2))
  (at level 100, c1 at next level, right associativity) : method_scope.
Notation "c1 ;; c2" := (bind c1 (fun _ => c2))
  (at level 100, right associativity) : method_scope.
Open Scope method_scope.

Fixpoint forEachM {A : Type} (f : A -> M unit) (l : list A) : M unit :=
  match l with
  | [] => ret tt
  | x :: l' => f x ;; forEachM f l'
  end.

(** ** Persistence boundary

    [this.save()] hands the document to the store.  The part of it that is
    written in this repository is the pre-save hook, which re-orders the
    ledger newest first (and the comments, not modelled). *)
Definition byDateDesc (a b : Expense.t) : Number :=
  Num (inject_Z (Expense.date b - Expense.date a)).

Definition preSave (g : Group.t) : Group.t :=
  Group.withBillSplit g (sort byDateDesc (Group.billSplit g)).

Definition save : M unit := modify preSave.

(** ** Membership manager *)

(** The virtual [memberCount]. *)
Definition memberCount (g : Group.t) : nat :=
  length (filter Member.isActive (Group.members g)).

Definition findMember (userId : string) (ms : list Member.t) : option Member.t :=
  find (fun m => String.eqb (Member.userId m) userId) ms.

(** In-place update of the record that [members.find] returned: the first
    one carrying [userId]. *)
Fixpoint updateFirst (userId : string) (f : Member.t -> Member.t)
    (ms : list Member.t) : list Member.t :=
  match ms with
  | [] => []
  | m :: ms' =>
      if String.eqb (Member.userId m) userId then f m :: ms'
      else m :: updateFirst userId f ms'
  end.

Definition reactivate (now : Z) (m : Member.t) : Member.t :=
  Member.mk (Member.userId m) (Member.username m) now (Member.role m) true.

Definition deactivate (m : Member.t) : Member.t :=
  Member.mk (Member.userId m) (Member.username m) (Member.joinedAt m) (Member.role m) false.

(** [role = 'member'] is the default parameter: [None] is an omitted
    argument. *)
Definition addMember (userId username : string) (role : option Role) (now : Z) : M unit :=
  let role := match role with Some r => r | None => member end in
  this <- getThis ;;
  match findMember userId (Group.members this) with
  | Some existingMember =>
      if negb (Member.isActive existingMember) then
        modify (fun g => Group.withMembers g
                  (updateFirst userId (reactivate now) (Group.members g))) ;;
        save
      else throw AlreadyMember
  | None =>
      when (Z.of_nat (memberCount this) >=? Group.maxMembers this)%Z
           (throw CapacityExceeded) ;;
      modify (fun g => Group.withMembers g
                (Group.members g ++ [Member.mk userId username now role true])) ;;
      save
  end.

Definition debtInvolves (userId : string) (debt : Debt.t) : bool :=
  (String.eqb (Party.userId (Debt.from debt)) userId
   || String.eqb (Party.userId (Debt.to debt)) userId)
  && match Debt.status debt with pending => true | _ => false end.

Definition removeMember (userId : string) : M unit :=
  this <- getThis ;;
  match findMember userId (Group.members this) with
  | None => throw NotAMember
  | Some _ =>
      let hasDebts := existsb (debtInvolves userId) (Group.simplifyDebt this) in
      when hasDebts (throw OutstandingDebt) ;;
      modify (fun g => Group.withMembers g
                (updateFirst userId deactivate (Group.members g))) ;;
      save
  end.

(** ** Debt simplifier *)

Definition activeMemberIds (g : Group.t) : list string :=
  map Member.userId (filter Member.isActive (Group.members g)).

Definition tolerance : Number := Num (1 # 100)%Q.

(** [if (!balances[memberId]) balances[memberId] = 0], for every active
    member. *)
Definition initBalances (memberIds : list string) (balances : Obj Number) : Obj Number :=
  fold_left
    (fun bal memberId => if falsy (get bal memberId) then set bal memberId (Num 0) else bal)
    memberIds balances.

Definition subtractSplits (splitBetween : list Split.t) (balances : Obj Number) : Obj Number :=
  fold_left
    (fun bal split =>
       set bal (Split.userId split)
           (sub (toNumber (get bal (Split.userId split))) (Split.amount split)))
    splitBetween balances.

(** Body of the first [forEach] of calculateDebts, for one expense. *)
Definition tallyExpense (this : Group.t) (debtsByCurrency : Obj (Obj Number))
    (expense : Expense.t) : Obj (Obj Number) :=
  let currency := Expense.currency expense in
  let debtsByCurrency :=
    match get debtsByCurrency currency with
    | None => set debtsByCurrency currency []
    | Some _ => debtsByCurrency
    end in
  let balances :=
    match get debtsByCurrency currency with
    | Some b => b
    | None => []
    end in
  let memberIds := activeMemberIds this in
  let balances := initBalances memberIds balances in
  let balances :=
    set balances (Expense.paidBy expense)
        (add (toNumber (get balances (Expense.paidBy expense))) (Expense.amount expense)) in
  let balances := subtractSplits (Expense.splitBetween expense) balances in
  set debtsByCurrency currency balances.

Definition debtsByCurrency (this : Group.t) : Obj (Obj Number) :=
  fold_left (tallyExpense this) (Group.billSplit this) [].

(** A creditor or debtor entry of the second phase. *)
Module Entry.
Record t : Type := mk {
  userId : string;
  amount : Number;
  username : string
}.

Definition withAmount (e : t) (a : Number) : t := mk (userId e) a (username e).
End Entry.

(** [{ userId: id, amount: ..., username: this.members.find(...).username }];
    reading [.username] of a failed [find] throws. *)
Definition entryOf (this : Group.t) (amountOf : Number -> Number)
    (balances : Obj Number) (id : string) : Error + Entry.t :=
  match findMember id (Group.members this) with
  | Some m => inr (Entry.mk id (amountOf (toNumber (get balances id))) (Member.username m))
  | None => inl TypeError
  end.

Fixpoint mapE {A B : Type} (f : A -> Error + B) (l : list A) : Error + list B :=
  match l with
  | [] => inr []
  | x :: l' =>
      match f x with
      | inl e => inl e
      | inr y =>
          match mapE f l' with
          | inl e => inl e
          | inr ys => inr (y :: ys)
          end
      end
  end.

Definition liftE {A : Type} (r : Error + A) : M A := fun this => (r, this).

Definition isCreditor (balances : Obj Number) (id : string) : bool :=
  gt (toNumber (get balances id)) tolerance.

Definition isDebtor (balances : Obj Number) (id : string) : bool :=
  lt (toNumber (get balances id)) (Num (- (1 # 100))%Q).

Definition creditorsOf (this : Group.t) (balances : Obj Number) : Error + list Entry.t :=
  mapE (entryOf this (fun b => b) balances) (filter (isCreditor balances) (keys balances)).

Definition debtorsOf (this : Group.t) (balances : Obj Number) : Error + list Entry.t :=
  mapE (entryOf this abs balances) (filter (isDebtor balances) (keys balances)).

Definition byAmountDesc (a b : Entry.t) : Number :=
  sub (Entry.amount b) (Entry.amount a).

Definition debtObject (currency : string) (debtor creditor : Entry.t)
    (settleAmount : Number) : Debt.plain :=
  Debt.mkPlain (Party.mk (Entry.userId debtor) (Entry.username debtor))
               (Party.mk (Entry.userId creditor) (Entry.username creditor))
               (round2 settleAmount) currency pending.

(** The two-pointer [while] loop.  [creditors] and [debtors] are the parts
    of the two arrays from index [i] and [j] on, their heads carrying the
    amounts the loop has written back; the result lists the pushed objects
    in order, [None] when the fuel runs out first. *)
Fixpoint sweep (fuel : nat) (currency : string) (creditors debtors : list Entry.t)
    : option (list Debt.plain) :=
  match creditors, debtors with
  | creditor :: cs, debtor :: ds =>
      match fuel with
      | O => None
      | S fuel' =>
          let settleAmount := min (Entry.amount creditor) (Entry.amount debtor) in
          let pushed :=
            if gt settleAmount tolerance
            then [debtObject currency debtor creditor settleAmount]
            else [] in
          let creditor' := Entry.withAmount creditor (sub (Entry.amount creditor) settleAmount) in
          let debtor' := Entry.withAmount debtor (sub (Entry.amount debtor) settleAmount) in
          let creditors' := if lt (Entry.amount creditor') tolerance then cs else creditor' :: cs in
          let debtors' := if lt (Entry.amount debtor') tolerance then ds else debtor' :: ds in
          option_map (app pushed) (sweep fuel' currency creditors' debtors')
      end
  | _, _ => Some []
  end.

(** What one pass of the second [forEach] pushes for one currency: the
    creditor and debtor arrays are built and sorted, then swept.  The
    sweep does not read [this.simplifyDebt], so its pushes are collected and
    appended afterwards.  Fuel: one iteration per array entry. *)
Definition transfers (this : Group.t) (currency : string) (balances : Obj Number)
    : Error + list Debt.plain :=
  match creditorsOf this balances with
  | inl e => inl e
  | inr creditors =>
      match debtorsOf this balances with
      | inl e => inl e
      | inr debtors =>
          let creditors := sort byAmountDesc creditors in
          let debtors := sort byAmountDesc debtors in
          match sweep (length creditors + length debtors) currency creditors debtors with
          | None => inl OutOfFuel
          | Some debts => inr debts
          end
      end
  end.

(** Body of the second [forEach], for one currency. *)
Definition settleCurrency (entry : string * Obj Number) : M unit :=
  let '(currency, balances) := entry in
  this <- getThis ;;
  debts <- liftE (transfers this currency balances) ;;
  forEachM (fun p => modify (fun g => Group.pushDebt g p)) debts.

Definition calculateDebts : M unit :=
  modify (fun g => Group.withSimplifyDebt g []) ;;
  this <- getThis ;;
  forEachM settleCurrency (debtsByCurrency this).

(** ** Expense ledger *)

Definition isActiveMemberId (this : Group.t) (userId : string) : bool :=
  existsb (String.eqb userId) (activeMemberIds this).

Definition totalSplit (splitBetween : list Split.t) : Number :=
  fold_left (fun sum split => add sum (Split.amount split)) splitBetween (Num 0).

Definition splitMismatch (splitBetween : list Split.t) (amount : Number) : bool :=
  gt (abs (sub (totalSplit splitBetween) amount)) tolerance.

Definition invalidUsers (this : Group.t) (splitBetween : list Split.t) : list Split.t :=
  filter (fun split => negb (isActiveMemberId this (Split.userId split))) splitBetween.

(** [category = 'other'] is the default parameter. *)
Definition addExpense (description : string) (amount : Number) (currency : string)
    (paidBy paidByUsername : string) (splitBetween : list Split.t)
    (category : option string) (receiptUrl notes : option string) (now : Z) : M unit :=
  let category := match category with Some c => c | None => "other"%string end in
  this <- getThis ;;
  when (negb (Group.allowMultipleCurrencies this)
        && negb (String.eqb currency (Group.defaultCurrency this)))
       (throw (CurrencyNotAllowed (Group.defaultCurrency this))) ;;
  when (0 <? length (invalidUsers this splitBetween)) (throw InvalidSplitParticipant) ;;
  when (splitMismatch splitBetween amount) (throw SplitMismatch) ;;
  let expense :=
    Expense.mk description amount currency paidBy paidByUsername splitBetween
               category receiptUrl notes now in
  modify (fun g => Group.withBillSplit g (Group.billSplit g ++ [expense])) ;;
  this <- getThis ;;
  when (Group.autoSimplifyDebts this) calculateDebts ;;
  save.

(** ** Settling *)

Definition findDebt (debtId : nat) (ds : list Debt.t) : option Debt.t :=
  find (fun d => Nat.eqb (Debt._id d) debtId) ds.

Definition settle (now : Z) (settledBy : string) (d : Debt.t) : Debt.t :=
  Debt.mk (Debt._id d) (Debt.from d) (Debt.to d) (Debt.amount d) (Debt.currency d)
          settled (Some now) (Some settledBy).

Fixpoint updateDebt (debtId : nat) (f : Debt.t -> Debt.t) (ds : list Debt.t) : list Debt.t :=
  match ds with
  | [] => []
  | d :: ds' =>
      if Nat.eqb (Debt._id d) debtId then f d :: ds' else d :: updateDebt debtId f ds'
  end.

Definition settleDebt (debtId : nat) (settledBy : string) (now : Z) : M unit :=
  this <- getThis ;;
  match findDebt debtId (Group.simplifyDebt this) with
  | None => throw DebtNotFound
  | Some debt =>
      match Debt.status debt with
      | pending =>
          modify (fun g => Group.withSimplifyDebt g
                    (updateDebt debtId (settle now settledBy) (Group.simplifyDebt g))) ;;
          save
      | _ => throw AlreadySettled
      end
  end.

(** ** Views used to state the properties *)

(** [dbc[currency]], or no balances when the currency has no expense. *)
Definition balancesOf (dbc : Obj (Obj Number)) (currency : string) : Obj Number :=
  match get dbc currency with
  | Some b => b
  | None => []
  end.

(** The balances calculateDebts computes for one currency. *)
Definition balancesIn (g : Group.t) (currency : string) : Obj Number :=
  balancesOf (debtsByCurrency g) currency.

(** Number of ids whose balance has magnitude above the tolerance. *)
Definition nonzeroBalances (balances : Obj Number) : nat :=
  length (filter (fun id => gt (abs (toNumber (get balances id))) tolerance) (keys balances)).

Definition debtsIn (g : Group.t) (currency : string) : list Debt.t :=
  filter (fun d => String.eqb (Debt.currency d) currency) (Group.simplifyDebt g).

(** Sub-documents made of a list of pushed objects, ids counting from [n]. *)
Fixpoint castFrom (n : nat) (ps : list Debt.plain) : list Debt.t :=
  match ps with
  | [] => []
  | p :: ps' => Debt.cast n p :: castFrom (S n) ps'
  end.

Definition transfersOrNil (this : Group.t) (entry : string * Obj Number) : list Debt.plain :=
  match transfers this (fst entry) (snd entry) with
  | inr debts => debts
  | inl _ => []
  end.

(** Everything one run of calculateDebts pushes, in order. *)
Definition recomputed (this : Group.t) : list Debt.plain :=
  flat_map (transfersOrNil this) (debtsByCurrency this).

Definition numeric (n : Number) : Prop := exists q, n = Num q.

Definition numericEntry (e : Entry.t) : Prop := numeric (Entry.amount e).

(** What every object pushed by a sweep over [cs] and [ds] looks like. *)
Definition sweepDebtOk (currency : string) (cs ds : list Entry.t) (p : Debt.plain) : Prop :=
  Debt.p_currency p = currency /\ Debt.p_status p = pending /\
  In (Party.userId (Debt.p_from p)) (map Entry.userId ds) /\
  In (Party.userId (Debt.p_to p)) (map Entry.userId cs).

(** Invariant of the balance dictionaries: keys are distinct and only ids of
    active members ever carry a number (every other key holds [NaN]). *)
Definition onlyActiveNumeric (ids : list string) (balances : Obj Number) : Prop :=
  forall id q, get balances id = Some (Num q) -> In id ids.

Definition balancesOk (ids : list string) (balances : Obj Number) : Prop :=
  NoDup (keys balances) /\ onlyActiveNumeric ids balances.

Definition ledgerOk (ids : list string) (dbc : Obj (Obj Number)) : Prop :=
  NoDup (keys dbc) /\ Forall (fun entry => balancesOk ids (snd entry)) dbc.

(** What calculateDebts pushes for [currency] out of [balances]. *)
Definition transferOk (ids : list string) (currency : string) (balances : Obj Number)
    (p : Debt.plain) : Prop :=
  Debt.p_currency p = currency /\ Debt.p_status p = pending /\
  In (Party.userId (Debt.p_from p)) ids /\ In (Party.userId (Debt.p_to p)) ids /\
  isDebtor balances (Party.userId (Debt.p_from p)) = true /\
  isCreditor balances (Party.userId (Debt.p_to p)) = true.

(** The entry built for id [x]. *)
Definition entryFor (x : string) (e : Entry.t) : Prop :=
  Entry.userId e = x /\ numericEntry e.

(** The three guards of addExpense in the order the method runs them: the
    error of the first that fires, if any.  The payer is not an argument. *)
Definition expenseChecks (g : Group.t) (currency : string) (splitBetween : list Split.t)
    (amount : Number) : option Error :=
  if negb (Group.allowMultipleCurrencies g)
     && negb (String.eqb currency (Group.defaultCurrency g))
  then Some (CurrencyNotAllowed (Group.defaultCurrency g))
  else if 0 <? length (invalidUsers g splitBetween) then Some InvalidSplitParticipant
  else if splitMismatch splitBetween amount then Some SplitMismatch
  else None.

(** The document after an accepted expense [e]: pushed, debts recomputed
    when the group asks for it, then handed to [save]. *)
Definition withExpense (g : Group.t) (e : Expense.t) : Group.t :=
  let g1 := Group.withBillSplit g (Group.billSplit g ++ [e]) in
  preSave (if Group.autoSimplifyDebts g then snd (calculateDebts g1) else g1).

(** What identifies a debt apart from its id: who pays whom how much. *)
Definition triple (d : Debt.t) : string * string * Number :=
  (Party.userId (Debt.from d), Party.userId (Debt.to d), Debt.amount d).

Definition unsettled (d : Debt.t) : Prop :=
  Debt.status d = pending /\ Debt.settledAt d = None /\ Debt.settledBy d = None.



Definition isSettled (d : Debt.t) : bool :=
  match Debt.status d with
  | settled => true
  | _ => false
  end.

(** At most one membership record per user. *)
Definition oneRecordPerUser (g : Group.t) : Prop :=
  NoDup (map Member.userId (Group.members g)).

Definition partiesActive (g : Group.t) (d : Debt.t) : Prop :=
  In (Party.userId (Debt.from d)) (activeMemberIds g) /\
  In (Party.userId (Debt.to d)) (activeMemberIds g).













(** ** Scenarios of the specification, evaluated *)

Module Scenario.
Definition A : string := "64b000000000000000000a01".
Definition B : string := "64b000000000000000000b02".
Definition C : string := "64b000000000000000000c03".

Definition G : Group.t :=
Group.mk [Member.mk A "alice" 0 admin true;
          Member.mk B "bob" 1 member true;
          Member.mk C "carol" 2 member true]
         [] [] "IDR" false true 50 0.

Definition thirds (a : Q) : list Split.t :=
[Split.mk A "alice" (Num a); Split.mk B "bob" (Num a); Split.mk C "carol" (Num a)].

Definition G1 : Group.t :=
snd (addExpense "dinner" (Num 300) "IDR" A "alice" (thirds 100) None None None 10 G).

Definition G2 : Group.t :=
snd (addExpense "taxi" (Num 60) "IDR" B "bob" (thirds 20) None None None 20 G1).

(** The C -> A debt of [G1] (id 1) settled by A. *)
Definition G1settled : Group.t := snd (settleDebt 1 A 15 G1).


(** [G] after C was removed once (no debts yet). *)
Definition Gleft : Group.t := snd (removeMember C G).

(** [G1] after the C -> A debt was settled and C removed. *)
Definition G1left : Group.t := snd (removeMember C G1settled).





End Scenario.


(** ** The rest of the schema: virtuals, comments, and the controllers'
    own logic *)

Definition isPending (d : Debt.t) : bool :=
  match Debt.status d with
  | pending => true
  | _ => false
  end.

(** The loop body shared by the two per-currency virtuals:
    [if (!totals[c]) totals[c] = 0; totals[c] += amount]. *)
Definition addToTotals (totals : Obj Number) (currency : string) (amount : Number)
    : Obj Number :=
  let totals := if falsy (get totals currency) then set totals currency (Num 0) else totals in
  set totals currency (add (toNumber (get totals currency)) amount).


(** The virtual [outstandingDebtsByCurrency]. *)
Definition outstandingDebtsByCurrency (g : Group.t) : Obj Number :=
  fold_left (fun totals debt => addToTotals totals (Debt.currency debt) (Debt.amount debt))
            (filter isPending (Group.simplifyDebt g)) [].

(** [commentSchema], and addComment with the comment part of the pre-save
    hook, on the [comments] array (the field the group record leaves out). *)
Module Comment.
Record t : Type := mk {
  userId : string;
  username : string;
  message : string;
  timestamp : Z;
  edited : bool;
  editedAt : option Z
}.
End Comment.



(** The guard of the deleteGroup handler. *)
Definition hasOutstandingDebts (g : Group.t) : bool :=
  existsb isPending (Group.simplifyDebt g).

(** The calculateGroupDebts handler, once the group is found:
    [group.calculateDebts(); await group.save()]. *)
Definition calculateGroupDebts : M unit :=
  calculateDebts ;; save.


(** ** Views for the further properties *)

(** Ordered by a whole-number key, smallest first. *)
Definition ascendingBy {A : Type} (key : A -> Z) (l : list A) : Prop :=
  StronglySorted (fun a b => (key a <= key b)%Z) l.

(** Newest first. *)
Definition newestFirst (es : list Expense.t) : Prop :=
  StronglySorted (fun a b => (Expense.date b <= Expense.date a)%Z) es.

Definition parties (d : Debt.t) : string * string :=
  (Party.userId (Debt.from d), Party.userId (Debt.to d)).

Definition plainParties (p : Debt.plain) : string * string :=
  (Party.userId (Debt.p_from p), Party.userId (Debt.p_to p)).

Definition debtIds (g : Group.t) : list nat := map Debt._id (Group.simplifyDebt g).



Definition activeRecord (g : Group.t) (userId : string) (active : bool) : Prop :=
  exists m, In m (Group.members g) /\ Member.userId m = userId /\ Member.isActive m = active.













Module Cases.
End Cases.

(** * Properties *)

(** Unfolds the plumbing of a method down to the document it returns. *)
Ltac run_method :=
  unfold bind, getThis, when, throw, ret, modify, save, liftE.

(** ** Numbers *)

Lemma Qltb_lt (x y : Q) : Qltb x y = true <-> (x < y)%Q.
Proof.
  unfold Qltb. rewrite negb_true_iff. split; intro H.
  - apply Qnot_le_lt. intro Hle. apply Qle_bool_iff in Hle. congruence.
  - destruct (Qle_bool y x) eqn:E; [|reflexivity].
    apply Qle_bool_iff in E. exfalso. apply (Qlt_not_le _ _ H E).
Qed.

Lemma Qltb_ge (x y : Q) : Qltb x y = false <-> (y <= x)%Q.
Proof.
  unfold Qltb. rewrite negb_false_iff. apply Qle_bool_iff.
Qed.

Lemma gt_Num (a : Number) (y : Q) :
  gt a (Num y) = true -> exists x, a = Num x /\ (y < x)%Q.
Proof.
  destruct a as [|x]; simpl; [discriminate|].
  intro H. exists x. split; [reflexivity|]. now apply Qltb_lt.
Qed.

Lemma lt_Num (a : Number) (y : Q) :
  lt a (Num y) = true -> exists x, a = Num x /\ (x < y)%Q.
Proof.
  destruct a as [|x]; simpl; [discriminate|].
  intro H. exists x. split; [reflexivity|]. now apply Qltb_lt.
Qed.

(** ** Dictionaries *)

Section ObjFacts.
Context {V : Type}.
Implicit Types (o : Obj V) (k : string) (v : V).

Lemma get_set_same o k v : get (set o k v) k = Some v.
Proof.
  induction o as [|[k' v'] o IH]; simpl.
  - now rewrite String.eqb_refl.
  - destruct (String.eqb k' k) eqn:E; simpl.
    + now rewrite String.eqb_refl.
    + now rewrite E.
Qed.

Lemma get_set_other o k k' v : k <> k' -> get (set o k v) k' = get o k'.
Proof.
  intro Hne. induction o as [|[k0 v0] o IH]; simpl.
  - destruct (String.eqb k k') eqn:E; [|reflexivity].
    apply String.eqb_eq in E. contradiction.
  - destruct (String.eqb k0 k) eqn:E; simpl.
    + apply String.eqb_eq in E. subst k0.
      destruct (String.eqb k k') eqn:E'; [|reflexivity].
      apply String.eqb_eq in E'. contradiction.
    + now rewrite IH.
Qed.

Lemma get_In o k v : get o k = Some v -> In (k, v) o.
Proof.
  induction o as [|[k' v'] o IH]; simpl; [discriminate|].
  destruct (String.eqb k' k) eqn:E.
  - apply String.eqb_eq in E. intros [= ->]. subst. now left.
  - intro H. right. now apply IH.
Qed.

Lemma get_None_keys o k : get o k = None <-> ~ In k (keys o).
Proof.
  induction o as [|[k' v'] o IH]; simpl.
  - tauto.
  - destruct (String.eqb k' k) eqn:E.
    + apply String.eqb_eq in E. split; [discriminate|]. intro H. exfalso. auto.
    + apply String.eqb_neq in E. rewrite IH. tauto.
Qed.


Lemma In_get o k v : NoDup (keys o) -> In (k, v) o -> get o k = Some v.
Proof.
  induction o as [|[k' v'] o IH]; simpl; [tauto|].
  intros Hnd [Heq | Hin].
  - injection Heq as -> ->. now rewrite String.eqb_refl.
  - inversion Hnd as [|? ? Hnotin Hnd']; subst.
    destruct (String.eqb k' k) eqn:E.
    + apply String.eqb_eq in E. subst k'. exfalso. apply Hnotin.
      unfold keys. now apply (in_map fst) in Hin.
    + now apply IH.
Qed.

Lemma keys_set_present o k v :
  In k (keys o) -> keys (set o k v) = keys o.
Proof.
  induction o as [|[k' v'] o IH]; simpl; [tauto|].
  intros Hin. destruct (String.eqb k' k) eqn:E; simpl.
  - apply String.eqb_eq in E. now subst.
  - f_equal. apply IH. destruct Hin as [Heq|Hin]; [|exact Hin].
    apply String.eqb_neq in E. contradiction.
Qed.

Lemma keys_set_absent o k v :
  ~ In k (keys o) -> keys (set o k v) = keys o ++ [k].
Proof.
  induction o as [|[k' v'] o IH]; simpl; [reflexivity|].
  intros Hnotin. destruct (String.eqb k' k) eqn:E; simpl.
  - apply String.eqb_eq in E. exfalso. auto.
  - f_equal. apply IH. tauto.
Qed.

Lemma keys_set_NoDup o k v : NoDup (keys o) -> NoDup (keys (set o k v)).
Proof.
  intro Hnd. destruct (in_dec string_dec k (keys o)) as [Hin|Hnotin].
  - now rewrite keys_set_present.
  - rewrite keys_set_absent by assumption.
    apply NoDup_app; [assumption | constructor; [simpl; tauto | constructor] |].
    intros x Hx [<-|[]]. contradiction.
Qed.

End ObjFacts.

(** ** Sorting *)

Section SortFacts.
Variable A : Type.
Variable cmp : A -> A -> Number.

Lemma insert_perm (x : A) (l : list A) : Permutation (insert cmp x l) (x :: l).
Proof.
  induction l as [|y l IH]; simpl.
  - apply Permutation_refl.
  - destruct (gt (cmp y x) (Num 0)).
    + apply Permutation_refl.
    + eapply Permutation_trans; [apply perm_skip, IH | apply perm_swap].
Qed.

Lemma sort_perm_acc (l acc : list A) :
  Permutation (fold_left (fun acc x => insert cmp x acc) l acc) (acc ++ l).
Proof.
  revert acc. induction l as [|x l IH]; intro acc; simpl.
  - rewrite app_nil_r. apply Permutation_refl.
  - eapply Permutation_trans; [apply IH|].
    eapply Permutation_trans; [apply Permutation_app_tail, insert_perm|].
    simpl. apply Permutation_cons_app. apply Permutation_refl.
Qed.

Lemma sort_perm (l : list A) : Permutation (sort cmp l) l.
Proof. unfold sort. apply (sort_perm_acc l []). Qed.

Lemma sort_length (l : list A) : length (sort cmp l) = length l.
Proof. apply Permutation_length, sort_perm. Qed.

Lemma sort_Forall (P : A -> Prop) (l : list A) : Forall P l -> Forall P (sort cmp l).
Proof.
  intro H. eapply Permutation_Forall; [|exact H].
  apply Permutation_sym, sort_perm.
Qed.
End SortFacts.

(** ** The two-pointer sweep *)

Lemma sub_min_settles (a b : Q) :
  let m := if Qle_bool a b then a else b in
  Qltb (a - m)%Q (1 # 100)%Q = true \/ Qltb (b - m)%Q (1 # 100)%Q = true.
Proof.
  simpl. destruct (Qle_bool a b); [left | right]; apply Qltb_lt.
  - setoid_replace (a - a)%Q with 0%Q by ring. reflexivity.
  - setoid_replace (b - b)%Q with 0%Q by ring. reflexivity.
Qed.

(** With fuel for one iteration per entry the loop finishes, and it pushes
    fewer objects than there are entries. *)
Lemma sweep_total (currency : string) (fuel : nat) :
  forall cs ds,
    Forall numericEntry cs -> Forall numericEntry ds ->
    length cs + length ds <= fuel ->
    exists debts,
      sweep fuel currency cs ds = Some debts /\
      length debts <= length cs + length ds - 1 /\
      Forall (sweepDebtOk currency cs ds) debts.
Proof.
  induction fuel as [|fuel IH]; intros cs ds Hcs Hds Hfuel.
  - destruct cs; [|simpl in Hfuel; lia]. exists []. simpl. repeat split; auto; lia.
  - destruct cs as [|c cs]; [exists []; simpl; repeat split; auto; lia|].
    destruct ds as [|d ds]; [exists []; simpl; repeat split; auto; lia|].
    inversion Hcs as [|? ? [a Ha] Hcs']; subst.
    inversion Hds as [|? ? [b Hb] Hds']; subst.
    simpl in Hfuel. cbn [sweep].
    set (settle := min (Entry.amount c) (Entry.amount d)).
    set (c' := Entry.withAmount c (sub (Entry.amount c) settle)).
    set (d' := Entry.withAmount d (sub (Entry.amount d) settle)).
    set (cs' := if lt (Entry.amount c') tolerance then cs else c' :: cs).
    set (ds' := if lt (Entry.amount d') tolerance then ds else d' :: ds).
    set (pushed := if gt settle tolerance then [debtObject currency d c settle] else []).
    assert (Hc' : numericEntry c').
    { unfold c', settle. rewrite Ha, Hb. eexists. reflexivity. }
    assert (Hd' : numericEntry d').
    { unfold d', settle. rewrite Ha, Hb. eexists. reflexivity. }
    assert (Hadv : lt (Entry.amount c') tolerance = true \/ lt (Entry.amount d') tolerance = true).
    { unfold c', d', settle. rewrite Ha, Hb. apply (sub_min_settles a b). }
    assert (Hcs'' : Forall numericEntry cs')
      by (unfold cs'; destruct (lt (Entry.amount c') tolerance); auto).
    assert (Hds'' : Forall numericEntry ds')
      by (unfold ds'; destruct (lt (Entry.amount d') tolerance); auto).
    assert (Hlen : length cs' + length ds' <= length cs + length ds + 1).
    { unfold cs', ds'. destruct Hadv as [E|E]; rewrite E;
        [destruct (lt (Entry.amount d') tolerance) | destruct (lt (Entry.amount c') tolerance)];
        simpl; lia. }
    assert (Hidc : incl (map Entry.userId cs') (map Entry.userId (c :: cs))).
    { unfold cs'. destruct (lt (Entry.amount c') tolerance); intros x Hx; simpl in *; tauto. }
    assert (Hidd : incl (map Entry.userId ds') (map Entry.userId (d :: ds))).
    { unfold ds'. destruct (lt (Entry.amount d') tolerance); intros x Hx; simpl in *; tauto. }
    assert (Hpushed : length pushed <= 1 /\ Forall (sweepDebtOk currency (c :: cs) (d :: ds)) pushed).
    { unfold pushed. destruct (gt settle tolerance); simpl; split; try lia; constructor;
        [|constructor]. unfold sweepDebtOk, debtObject; simpl. auto. }
    clearbody cs' ds' pushed.
    destruct (IH cs' ds' Hcs'' Hds'' ltac:(lia)) as (debts & Hrun & Hcount & Hok).
    rewrite Hrun. simpl option_map.
    eexists. split; [reflexivity|]. split.
    + rewrite length_app. simpl. lia.
    + apply Forall_app. split; [apply Hpushed|].
      eapply Forall_impl; [|exact Hok].
      intros p (H1 & H2 & H3 & H4). repeat split; auto.
Qed.


(** ** Balances *)

Lemma set_Forall_snd {V : Type} (P : V -> Prop) (o : Obj V) (k : string) (v : V) :
  Forall (fun entry => P (snd entry)) o -> P v ->
  Forall (fun entry => P (snd entry)) (set o k v).
Proof.
  intros Ho Hv. induction o as [|[k' v'] o IH]; simpl.
  - constructor; [exact Hv | constructor].
  - inversion Ho; subst. destruct (String.eqb k' k); constructor; auto.
Qed.

Lemma balancesOk_nil (ids : list string) : balancesOk ids [].
Proof.
  split; [constructor | intros id q H; discriminate].
Qed.

Lemma balancesOk_set (ids : list string) (bal : Obj Number) (k : string) (v : Number) :
  balancesOk ids bal -> (numeric v -> In k ids) -> balancesOk ids (set bal k v).
Proof.
  intros [Hnd Hact] Hk. split; [now apply keys_set_NoDup|].
  intros id q Hget. destruct (string_dec k id) as [->|Hne].
  - rewrite get_set_same in Hget. apply Hk. exists q. congruence.
  - rewrite get_set_other in Hget by assumption. eauto.
Qed.

Lemma numeric_add_l (a b : Number) : numeric (add a b) -> numeric a.
Proof. destruct a; [intros [q H]; discriminate | intros _; eexists; reflexivity]. Qed.

Lemma numeric_sub_l (a b : Number) : numeric (sub a b) -> numeric a.
Proof. destruct a; [intros [q H]; discriminate | intros _; eexists; reflexivity]. Qed.

Lemma numeric_read (ids : list string) (bal : Obj Number) (k : string) :
  onlyActiveNumeric ids bal -> numeric (toNumber (get bal k)) -> In k ids.
Proof.
  intros Hact [q Hq]. destruct (get bal k) as [n|] eqn:E; simpl in Hq; [|discriminate].
  subst n. eauto.
Qed.

Lemma initBalances_ok (ids l : list string) :
  incl l ids -> forall bal, balancesOk ids bal -> balancesOk ids (initBalances l bal).
Proof.
  unfold initBalances. induction l as [|id l IH]; intros Hincl bal Hbal; simpl; [exact Hbal|].
  apply IH; [intros x Hx; apply Hincl; now right|].
  destruct (falsy (get bal id)); [|exact Hbal].
  apply balancesOk_set; [exact Hbal|]. intros _. apply Hincl. now left.
Qed.

Lemma subtractSplits_ok (ids : list string) (splits : list Split.t) :
  forall bal, balancesOk ids bal -> balancesOk ids (subtractSplits splits bal).
Proof.
  unfold subtractSplits. induction splits as [|s splits IH]; intros bal Hbal; simpl; [exact Hbal|].
  apply IH. apply balancesOk_set; [exact Hbal|].
  intro Hn. apply numeric_sub_l in Hn. eapply numeric_read; [apply Hbal | exact Hn].
Qed.

Lemma ledgerOk_get (ids : list string) (dbc : Obj (Obj Number)) (cur : string) (bal : Obj Number) :
  ledgerOk ids dbc -> get dbc cur = Some bal -> balancesOk ids bal.
Proof.
  intros [_ Hall] Hget. apply get_In in Hget.
  rewrite Forall_forall in Hall. apply (Hall _ Hget).
Qed.

Lemma ledgerOk_set (ids : list string) (dbc : Obj (Obj Number)) (cur : string) (bal : Obj Number) :
  ledgerOk ids dbc -> balancesOk ids bal -> ledgerOk ids (set dbc cur bal).
Proof.
  intros [Hnd Hall] Hbal. split; [now apply keys_set_NoDup|].
  now apply (set_Forall_snd (balancesOk ids)).
Qed.

Lemma tallyExpense_ok (g : Group.t) (dbc : Obj (Obj Number)) (e : Expense.t) :
  ledgerOk (activeMemberIds g) dbc -> ledgerOk (activeMemberIds g) (tallyExpense g dbc e).
Proof.
  intro Hdbc. unfold tallyExpense.
  set (ids := activeMemberIds g) in *.
  set (dbc1 := match get dbc (Expense.currency e) with
               | None => set dbc (Expense.currency e) []
               | Some _ => dbc
               end).
  assert (Hdbc1 : ledgerOk ids dbc1).
  { unfold dbc1. destruct (get dbc (Expense.currency e)); [exact Hdbc|].
    apply ledgerOk_set; [exact Hdbc | apply balancesOk_nil]. }
  set (bal0 := match get dbc1 (Expense.currency e) with Some b => b | None => [] end).
  assert (Hbal0 : balancesOk ids bal0).
  { unfold bal0. destruct (get dbc1 (Expense.currency e)) eqn:E; [|apply balancesOk_nil].
    eapply ledgerOk_get; eauto. }
  apply ledgerOk_set; [exact Hdbc1|].
  apply subtractSplits_ok. apply balancesOk_set.
  - apply initBalances_ok; [apply incl_refl | exact Hbal0].
  - intro Hn. apply numeric_add_l in Hn. eapply numeric_read; [|exact Hn].
    apply initBalances_ok; [apply incl_refl | exact Hbal0].
Qed.

Lemma debtsByCurrency_ok (g : Group.t) : ledgerOk (activeMemberIds g) (debtsByCurrency g).
Proof.
  unfold debtsByCurrency.
  assert (H : forall es dbc, ledgerOk (activeMemberIds g) dbc ->
                             ledgerOk (activeMemberIds g) (fold_left (tallyExpense g) es dbc)).
  { induction es as [|e es IH]; intros dbc Hdbc; simpl; [exact Hdbc|].
    apply IH, tallyExpense_ok, Hdbc. }
  apply H. split; constructor.
Qed.

Lemma balancesIn_ok (g : Group.t) (currency : string) :
  balancesOk (activeMemberIds g) (balancesIn g currency).
Proof.
  unfold balancesIn, balancesOf. destruct (get (debtsByCurrency g) currency) eqn:E.
  - eapply ledgerOk_get; [apply debtsByCurrency_ok | exact E].
  - apply balancesOk_nil.
Qed.

(** ** Creditors, debtors and the transfers of one currency *)

Lemma findMember_active (g : Group.t) (id : string) :
  In id (activeMemberIds g) -> exists m, findMember id (Group.members g) = Some m.
Proof.
  unfold activeMemberIds, findMember. intro H.
  apply in_map_iff in H. destruct H as (m & Hid & Hm). apply filter_In in Hm.
  destruct (find (fun m0 => String.eqb (Member.userId m0) id) (Group.members g)) eqn:E.
  - eauto.
  - exfalso. pose proof (find_none _ _ E m (proj1 Hm)) as Hn. simpl in Hn.
    rewrite Hid, String.eqb_refl in Hn. discriminate.
Qed.

Lemma mapE_total {A B : Type} (f : A -> Error + B) (Q : A -> B -> Prop) (l : list A) :
  (forall x, In x l -> exists y, f x = inr y /\ Q x y) ->
  exists ys, mapE f l = inr ys /\ Forall2 Q l ys.
Proof.
  induction l as [|x l IH]; intro H; simpl.
  - exists []. split; [reflexivity | constructor].
  - destruct (H x (or_introl eq_refl)) as (y & Hy & HQ).
    destruct IH as (ys & Hys & HF); [intros z Hz; apply H; now right|].
    rewrite Hy, Hys. exists (y :: ys). split; [reflexivity | now constructor].
Qed.

Lemma entries_total (g : Group.t) (amountOf : Number -> Number) (bal : Obj Number)
    (keep : string -> bool) :
  onlyActiveNumeric (activeMemberIds g) bal ->
  (forall id, keep id = true -> numeric (toNumber (get bal id))) ->
  (forall n, numeric n -> numeric (amountOf n)) ->
  exists es, mapE (entryOf g amountOf bal) (filter keep (keys bal)) = inr es /\
             Forall2 entryFor (filter keep (keys bal)) es.
Proof.
  intros Hact Hkeep Hamt. apply mapE_total. intros id Hid.
  apply filter_In in Hid. destruct Hid as [_ Hk].
  pose proof (Hkeep id Hk) as Hnum.
  destruct (findMember_active g id (numeric_read id Hact Hnum)) as [m Hm].
  unfold entryOf. rewrite Hm. eexists. split; [reflexivity|].
  split; [reflexivity|]. apply Hamt, Hnum.
Qed.

Lemma Forall2_entryFor (ids : list string) (es : list Entry.t) :
  Forall2 entryFor ids es ->
  length es = length ids /\ map Entry.userId es = ids /\ Forall numericEntry es.
Proof.
  induction 1 as [|x e ids es [Hx Hn] _ (IH1 & IH2 & IH3)]; simpl.
  - repeat split; constructor.
  - repeat split; [now f_equal | now f_equal | now constructor].
Qed.

Lemma isCreditor_numeric (bal : Obj Number) (id : string) :
  isCreditor bal id = true -> numeric (toNumber (get bal id)).
Proof.
  unfold isCreditor, tolerance. intro H. apply gt_Num in H.
  destruct H as (x & Hx & _). now exists x.
Qed.

Lemma isDebtor_numeric (bal : Obj Number) (id : string) :
  isDebtor bal id = true -> numeric (toNumber (get bal id)).
Proof.
  unfold isDebtor. intro H. apply lt_Num in H.
  destruct H as (x & Hx & _). now exists x.
Qed.

Lemma abs_numeric (n : Number) : numeric n -> numeric (abs n).
Proof. intros [q ->]. eexists; reflexivity. Qed.

(** An id counts as nonzero exactly when it is a creditor or a debtor, and
    never both. *)
Lemma nonzero_creditor_or_debtor (bal : Obj Number) (id : string) :
  gt (abs (toNumber (get bal id))) tolerance = isCreditor bal id || isDebtor bal id.
Proof.
  unfold isCreditor, isDebtor, tolerance.
  destruct (toNumber (get bal id)) as [|x]; simpl; [reflexivity|].
  destruct (Qltb (1 # 100) (Qabs x)) eqn:E.
  - apply Qltb_lt in E. symmetry. apply orb_true_iff.
    destruct (Qlt_le_dec x 0) as [Hneg|Hpos].
    + right. apply Qltb_lt. rewrite Qabs_neg in E by (apply Qlt_le_weak, Hneg).
      apply Qopp_lt_compat in E. rewrite Qopp_involutive in E. exact E.
    + left. apply Qltb_lt. now rewrite Qabs_pos in E.
  - apply Qltb_ge in E. symmetry. apply orb_false_iff. split; apply Qltb_ge.
    + eapply Qle_trans; [apply Qle_Qabs | exact E].
    + apply Qopp_le_compat in E.
      eapply Qle_trans; [exact E|].
      rewrite <- (Qopp_involutive x) at 2. apply Qopp_le_compat.
      rewrite <- Qabs_opp. apply Qle_Qabs.
Qed.

Lemma creditor_not_debtor (bal : Obj Number) (id : string) :
  isCreditor bal id = true -> isDebtor bal id = false.
Proof.
  unfold isCreditor, isDebtor, tolerance.
  destruct (toNumber (get bal id)) as [|x]; simpl; [discriminate|].
  intro H. apply Qltb_lt in H. apply Qltb_ge.
  apply Qlt_le_weak. eapply Qlt_trans; [|exact H]. reflexivity.
Qed.

Lemma filter_or_length {A : Type} (p q : A -> bool) (l : list A) :
  (forall x, p x = true -> q x = false) ->
  length (filter (fun x => p x || q x) l) = length (filter p l) + length (filter q l).
Proof.
  intro H. induction l as [|x l IH]; simpl; [reflexivity|].
  destruct (p x) eqn:Ep; simpl.
  - rewrite (H x Ep). simpl. now rewrite IH.
  - destruct (q x); simpl; rewrite IH; lia.
Qed.

Lemma nonzeroBalances_split (bal : Obj Number) :
  nonzeroBalances bal =
  length (filter (isCreditor bal) (keys bal)) + length (filter (isDebtor bal) (keys bal)).
Proof.
  unfold nonzeroBalances.
  rewrite (filter_ext _ _ (nonzero_creditor_or_debtor bal)).
  apply filter_or_length, creditor_not_debtor.
Qed.

(** For balances that satisfy the invariant, building and sweeping the two
    arrays neither throws nor runs out of fuel. *)
Lemma transfers_total (g : Group.t) (currency : string) (bal : Obj Number) :
  balancesOk (activeMemberIds g) bal ->
  exists debts,
    transfers g currency bal = inr debts /\
    length debts <= nonzeroBalances bal - 1 /\
    Forall (transferOk (activeMemberIds g) currency bal) debts.
Proof.
  intros [Hnd Hact]. unfold transfers, creditorsOf, debtorsOf.
  destruct (entries_total g (fun b => b) (isCreditor bal) Hact (isCreditor_numeric bal)
              (fun n H => H)) as (cs & -> & Hcs).
  destruct (entries_total g abs (isDebtor bal) Hact (isDebtor_numeric bal) abs_numeric)
    as (ds & -> & Hds).
  apply Forall2_entryFor in Hcs. destruct Hcs as (Hclen & Hcid & Hcnum).
  apply Forall2_entryFor in Hds. destruct Hds as (Hdlen & Hdid & Hdnum).
  pose proof (sort_Forall byAmountDesc Hcnum) as Hcs.
  pose proof (sort_Forall byAmountDesc Hdnum) as Hds.
  destruct (sweep_total currency Hcs Hds (le_n _)) as (debts & Hrun & Hcount & Hok).
  rewrite Hrun. exists debts. split; [reflexivity|].
  rewrite !sort_length in Hcount. split.
  - rewrite nonzeroBalances_split. lia.
  - eapply Forall_impl; [|exact Hok].
    intros p (H1 & H2 & H3 & H4).
    assert (Hfrom : In (Party.userId (Debt.p_from p)) (filter (isDebtor bal) (keys bal))).
    { rewrite <- Hdid. eapply Permutation_in; [|exact H3].
      apply Permutation_map, sort_perm. }
    assert (Hto : In (Party.userId (Debt.p_to p)) (filter (isCreditor bal) (keys bal))).
    { rewrite <- Hcid. eapply Permutation_in; [|exact H4].
      apply Permutation_map, sort_perm. }
    apply filter_In in Hfrom. apply filter_In in Hto.
    destruct Hfrom as [_ Hfrom]. destruct Hto as [_ Hto].
    repeat split; auto.
    + eapply numeric_read; [exact Hact | now apply isDebtor_numeric].
    + eapply numeric_read; [exact Hact | now apply isCreditor_numeric].
Qed.

(** ** calculateDebts as a whole *)

Lemma forEachM_push (ps : list Debt.plain) :
  forall g, forEachM (fun p => modify (fun g => Group.pushDebt g p)) ps g
            = (inr tt, fold_left Group.pushDebt ps g).
Proof.
  induction ps as [|p ps IH]; intro g; simpl; [reflexivity|].
  unfold bind, modify. apply IH.
Qed.

Lemma fold_pushDebt (ps : list Debt.plain) :
  forall g, fold_left Group.pushDebt ps g =
            Group.mk (Group.members g) (Group.billSplit g)
                     (Group.simplifyDebt g ++ castFrom (Group.oidCounter g) ps)
                     (Group.defaultCurrency g) (Group.allowMultipleCurrencies g)
                     (Group.autoSimplifyDebts g) (Group.maxMembers g)
                     (Group.oidCounter g + length ps).
Proof.
  induction ps as [|p ps IH]; intro g; simpl.
  - destruct g; simpl. now rewrite app_nil_r, Nat.add_0_r.
  - rewrite IH. simpl. rewrite <- app_assoc. simpl. f_equal. lia.
Qed.

Lemma tallyExpense_members (g g' : Group.t) :
  Group.members g = Group.members g' -> tallyExpense g = tallyExpense g'.
Proof.
  intro H. unfold tallyExpense, activeMemberIds. now rewrite H.
Qed.

Lemma debtsByCurrency_ext (g g' : Group.t) :
  Group.members g = Group.members g' -> Group.billSplit g = Group.billSplit g' ->
  debtsByCurrency g = debtsByCurrency g'.
Proof.
  intros Hm Hb. unfold debtsByCurrency. now rewrite (tallyExpense_members g g' Hm), Hb.
Qed.

Lemma transfers_members (g g' : Group.t) (currency : string) (bal : Obj Number) :
  Group.members g = Group.members g' -> transfers g currency bal = transfers g' currency bal.
Proof.
  intro H. unfold transfers, creditorsOf, debtorsOf, entryOf. now rewrite H.
Qed.

Lemma recomputed_ext (g g' : Group.t) :
  Group.members g = Group.members g' -> Group.billSplit g = Group.billSplit g' ->
  recomputed g = recomputed g'.
Proof.
  intros Hm Hb. unfold recomputed. rewrite (debtsByCurrency_ext g g' Hm Hb).
  apply flat_map_ext. intros [cur bal]. unfold transfersOrNil.
  now rewrite (transfers_members g g' _ _ Hm).
Qed.

Lemma forEachM_settleCurrency (g0 : Group.t) (dbc : Obj (Obj Number)) :
  Forall (fun entry => balancesOk (activeMemberIds g0) (snd entry)) dbc ->
  forall g, Group.members g = Group.members g0 ->
    forEachM settleCurrency dbc g
    = (inr tt, fold_left Group.pushDebt (flat_map (transfersOrNil g0) dbc) g).
Proof.
  induction 1 as [|[cur bal] dbc Hbal _ IH]; intros g Hm; simpl; [reflexivity|].
  simpl in Hbal. destruct (transfers_total g0 cur Hbal) as (debts & Hrun & _).
  unfold bind at 1. unfold settleCurrency at 1. unfold bind, getThis, liftE.
  rewrite (transfers_members g g0 cur bal Hm), Hrun.
  rewrite forEachM_push. unfold transfersOrNil at 1. simpl fst. simpl snd. rewrite Hrun.
  rewrite fold_left_app. apply IH.
  rewrite fold_pushDebt. simpl. exact Hm.
Qed.

(** calculateDebts always returns: it empties the debt list and pushes
    [recomputed], which depends on the members and the ledger only. *)
Lemma calculateDebts_run (g : Group.t) :
  calculateDebts g
  = (inr tt, fold_left Group.pushDebt (recomputed g) (Group.withSimplifyDebt g [])).
Proof.
  unfold calculateDebts. run_method.
  rewrite (debtsByCurrency_ext (Group.withSimplifyDebt g []) g eq_refl eq_refl).
  apply forEachM_settleCurrency; [|reflexivity].
  apply debtsByCurrency_ok.
Qed.

Lemma calculateDebts_debts (g : Group.t) :
  Group.simplifyDebt (snd (calculateDebts g)) = castFrom (Group.oidCounter g) (recomputed g).
Proof.
  rewrite calculateDebts_run, fold_pushDebt. reflexivity.
Qed.


Lemma castFrom_Forall (P : Debt.t -> Prop) (Pp : Debt.plain -> Prop) :
  (forall n p, Pp p -> P (Debt.cast n p)) ->
  forall ps n, Forall Pp ps -> Forall P (castFrom n ps).
Proof.
  intros H ps. induction ps as [|p ps IH]; intros n Hps; simpl; [constructor|].
  inversion Hps; subst. constructor; auto.
Qed.

(** Every pushed object is a transfer of its own currency's balances. *)
Lemma recomputed_ok (g : Group.t) :
  Forall (fun p => transferOk (activeMemberIds g) (Debt.p_currency p)
                              (balancesIn g (Debt.p_currency p)) p)
         (recomputed g).
Proof.
  unfold recomputed. pose proof (debtsByCurrency_ok g) as [Hnd Hall].
  apply Forall_flat_map. rewrite Forall_forall. intros [cur bal] Hin.
  rewrite Forall_forall in Hall. pose proof (Hall _ Hin) as Hbal. simpl in Hbal.
  destruct (transfers_total g cur Hbal) as (debts & Hrun & _ & Hok).
  unfold transfersOrNil. simpl. rewrite Hrun.
  eapply Forall_impl; [|exact Hok]. intros p Hp.
  assert (Hc : Debt.p_currency p = cur) by apply Hp. rewrite Hc.
  unfold balancesIn, balancesOf. now rewrite (In_get _ _ _ Hnd Hin).
Qed.

Lemma filter_all {A : Type} (f : A -> bool) (l : list A) :
  (forall x, In x l -> f x = true) -> filter f l = l.
Proof.
  induction l as [|x l IH]; intro H; simpl; [reflexivity|].
  rewrite (H x (or_introl eq_refl)). f_equal. apply IH. intros y Hy. apply H. now right.
Qed.

Lemma filter_none {A : Type} (f : A -> bool) (l : list A) :
  (forall x, In x l -> f x = false) -> filter f l = [].
Proof.
  induction l as [|x l IH]; intro H; simpl; [reflexivity|].
  rewrite (H x (or_introl eq_refl)). apply IH. intros y Hy. apply H. now right.
Qed.

Lemma flat_map_currency (g : Group.t) (currency : string) (dbc : Obj (Obj Number)) :
  ledgerOk (activeMemberIds g) dbc ->
  filter (fun p => String.eqb (Debt.p_currency p) currency) (flat_map (transfersOrNil g) dbc)
  = match get dbc currency with
    | Some bal => transfersOrNil g (currency, bal)
    | None => []
    end.
Proof.
  intros [Hnd Hall]. induction dbc as [|[cur bal] dbc IH]; simpl; [reflexivity|].
  inversion Hnd as [|? ? Hnotin Hnd']; subst. inversion Hall as [|? ? Hbal Hall']; subst.
  simpl in Hbal. rewrite filter_app, IH by assumption.
  destruct (transfers_total g cur Hbal) as (debts & Hrun & _ & Hok).
  assert (Hhead : transfersOrNil g (cur, bal) = debts)
    by (unfold transfersOrNil; simpl; now rewrite Hrun).
  rewrite Forall_forall in Hok.
  destruct (String.eqb cur currency) eqn:E.
  - apply String.eqb_eq in E. subst cur.
    rewrite (proj2 (get_None_keys dbc currency) Hnotin), app_nil_r.
    apply filter_all. intros p Hp. rewrite Hhead in Hp.
    destruct (Hok p Hp) as [-> _]. apply String.eqb_refl.
  - rewrite filter_none; [reflexivity|]. intros p Hp. rewrite Hhead in Hp.
    destruct (Hok p Hp) as [-> _]. exact E.
Qed.

(** The objects pushed for one currency are exactly that currency's
    transfers. *)
Lemma recomputed_currency (g : Group.t) (currency : string) :
  filter (fun p => String.eqb (Debt.p_currency p) currency) (recomputed g)
  = transfersOrNil g (currency, balancesIn g currency).
Proof.
  unfold recomputed, balancesIn, balancesOf.
  rewrite (flat_map_currency g currency (debtsByCurrency_ok g)).
  destruct (get (debtsByCurrency g) currency); reflexivity.
Qed.

(** ** addExpense as a whole *)

Lemma addExpense_run (g : Group.t) (description : string) (amount : Number)
    (currency paidBy paidByUsername : string) (splitBetween : list Split.t)
    (category receiptUrl notes : option string) (now : Z) :
  addExpense description amount currency paidBy paidByUsername splitBetween
             category receiptUrl notes now g
  = match expenseChecks g currency splitBetween amount with
    | Some e => (inl e, g)
    | None =>
        (inr tt,
         withExpense g
           (Expense.mk description amount currency paidBy paidByUsername splitBetween
                       (match category with Some c => c | None => "other"%string end)
                       receiptUrl notes now))
    end.
Proof.
  unfold addExpense, expenseChecks, withExpense. run_method.
  destruct (negb (Group.allowMultipleCurrencies g)
            && negb (String.eqb currency (Group.defaultCurrency g))); [reflexivity|].
  destruct (0 <? length (invalidUsers g splitBetween)); [reflexivity|].
  destruct (splitMismatch splitBetween amount); [reflexivity|].
  cbn [Group.autoSimplifyDebts Group.withBillSplit].
  destruct (Group.autoSimplifyDebts g); [|reflexivity].
  rewrite calculateDebts_run. reflexivity.
Qed.

(** ** Settlement minimality, idempotence, discarded history *)

Lemma castFrom_filter_map {B : Type} (keep : Debt.t -> bool) (keepPlain : Debt.plain -> bool)
    (f : Debt.t -> B) (h : Debt.plain -> B) :
  (forall n p, keep (Debt.cast n p) = keepPlain p) ->
  (forall n p, f (Debt.cast n p) = h p) ->
  forall ps n, map f (filter keep (castFrom n ps)) = map h (filter keepPlain ps).
Proof.
  intros Hk Hf ps. induction ps as [|p ps IH]; intro n; simpl; [reflexivity|].
  rewrite Hk. destruct (keepPlain p); simpl; [rewrite Hf|]; now rewrite IH.
Qed.




Lemma recomputed_unsettled (g : Group.t) :
  Forall unsettled (Group.simplifyDebt (snd (calculateDebts g))).
Proof.
  rewrite calculateDebts_debts.
  apply castFrom_Forall with (Pp := fun p => Debt.p_status p = pending).
  - intros n p Hp. unfold unsettled, Debt.cast. simpl. auto.
  - eapply Forall_impl; [|apply recomputed_ok]. intros p Hp. apply Hp.
Qed.

Lemma preSave_debts (g : Group.t) : Group.simplifyDebt (preSave g) = Group.simplifyDebt g.
Proof. reflexivity. Qed.

Lemma settleDebt_frame (debtId : nat) (settledBy : string) (now : Z) (g : Group.t) :
  Group.autoSimplifyDebts (snd (settleDebt debtId settledBy now g)) = Group.autoSimplifyDebts g.
Proof.
  unfold settleDebt. run_method.
  destruct (findDebt debtId (Group.simplifyDebt g)) as [d|]; [|reflexivity].
  destruct (Debt.status d); reflexivity.
Qed.

(** C4.  Every run of calculateDebts throws away the existing Debt list
    whatever it holds (settled and disputed records included) and rebuilds
    it from the members and the whole ledger: the result does not depend on
    the prior list, and every record in it is pending with no settlement
    data.  Hence, in a group with autoSimplifyDebts on, settling a debt and
    then adding an accepted expense leaves no settled record. *)
Theorem recompute_discards_history (g : Group.t) :
  (forall prior,
      Group.simplifyDebt (snd (calculateDebts (Group.withSimplifyDebt g prior)))
      = castFrom (Group.oidCounter g) (recomputed g)) /\
  Forall unsettled (Group.simplifyDebt (snd (calculateDebts g))) /\
  (forall debtId settledBy t description amount currency paidBy paidByUsername
          splitBetween category receiptUrl notes now,
      Group.autoSimplifyDebts g = true ->
      let settledFirst := snd (settleDebt debtId settledBy t g) in
      let run := addExpense description amount currency paidBy paidByUsername
                            splitBetween category receiptUrl notes now settledFirst in
      fst run = inr tt ->
      Forall unsettled (Group.simplifyDebt (snd run))).
Proof.
  split; [|split].
  - intro prior. rewrite calculateDebts_debts.
    now rewrite (recomputed_ext (Group.withSimplifyDebt g prior) g eq_refl eq_refl).
  - apply recomputed_unsettled.
  - intros debtId settledBy t description amount currency paidBy paidByUsername
           splitBetween category receiptUrl notes now Hauto settledFirst run Hok.
    unfold run in *. rewrite addExpense_run in *.
    destruct (expenseChecks settledFirst currency splitBetween amount); [discriminate|].
    simpl snd. unfold withExpense.
    replace (Group.autoSimplifyDebts settledFirst) with true
      by (unfold settledFirst; now rewrite settleDebt_frame).
    rewrite preSave_debts. apply recomputed_unsettled.
Qed.

(** C4, at a concrete group: after the dinner of [Scenario.G1] the debt
    C -> A is settled; the next accepted expense leaves only pending debts. *)
Lemma recompute_discards_history_witness :
  existsb isSettled (Group.simplifyDebt Scenario.G1settled) = true /\
  Forall unsettled
    (Group.simplifyDebt
       (snd (addExpense "taxi" (Num 60) "IDR" Scenario.B "bob" (Scenario.thirds 20)
                        None None None 20 Scenario.G1settled))).
Proof.
  split; [reflexivity|].
  apply (proj2 (proj2 (recompute_discards_history Scenario.G1)) 1 Scenario.A 15%Z);
    reflexivity.
Defined.

(** ** The guards of addExpense *)














(** ** Membership *)

Lemma findMember_Some (userId : string) (ms : list Member.t) (m : Member.t) :
  findMember userId ms = Some m -> In m ms /\ Member.userId m = userId.
Proof.
  unfold findMember. intro H. apply find_some in H. destruct H as [Hin Heq].
  split; [exact Hin | now apply String.eqb_eq].
Qed.

Lemma findMember_None (userId : string) (ms : list Member.t) :
  findMember userId ms = None <-> ~ In userId (map Member.userId ms).
Proof.
  unfold findMember. induction ms as [|m ms IH]; simpl; [tauto|].
  destruct (String.eqb (Member.userId m) userId) eqn:E.
  - apply String.eqb_eq in E. split; [discriminate | intro H; exfalso; auto].
  - apply String.eqb_neq in E. rewrite IH. tauto.
Qed.

Lemma findMember_unique (userId : string) (ms : list Member.t) (m : Member.t) :
  NoDup (map Member.userId ms) -> In m ms -> Member.userId m = userId ->
  findMember userId ms = Some m.
Proof.
  unfold findMember. induction ms as [|m0 ms IH]; simpl; [tauto|].
  intros Hnd [->|Hin] Hid.
  - now rewrite Hid, String.eqb_refl.
  - inversion Hnd as [|? ? Hnotin Hnd']; subst.
    destruct (String.eqb (Member.userId m0) (Member.userId m)) eqn:E; [|now apply IH].
    apply String.eqb_eq in E. exfalso. apply Hnotin. rewrite E. now apply in_map.
Qed.

Lemma updateFirst_ids (userId : string) (f : Member.t -> Member.t) (ms : list Member.t) :
  (forall m, Member.userId (f m) = Member.userId m) ->
  map Member.userId (updateFirst userId f ms) = map Member.userId ms.
Proof.
  intro Hf. induction ms as [|m ms IH]; simpl; [reflexivity|].
  destruct (String.eqb (Member.userId m) userId); simpl; [now rewrite Hf | now rewrite IH].
Qed.

Lemma updateFirst_found (userId : string) (f : Member.t -> Member.t) (ms : list Member.t)
    (m : Member.t) :
  findMember userId ms = Some m -> In (f m) (updateFirst userId f ms).
Proof.
  unfold findMember. induction ms as [|m0 ms IH]; simpl; [discriminate|].
  destruct (String.eqb (Member.userId m0) userId).
  - intros [= ->]. now left.
  - intro H. right. now apply IH.
Qed.




(** What removeMember does in general: the lookup is by user id alone and
    does not look at [isActive]. *)
Lemma removeMember_run (g : Group.t) (userId : string) :
  removeMember userId g
  = match findMember userId (Group.members g) with
    | None => (inl NotAMember, g)
    | Some _ =>
        if existsb (debtInvolves userId) (Group.simplifyDebt g)
        then (inl OutstandingDebt, g)
        else (inr tt,
              preSave (Group.withMembers g
                         (updateFirst userId deactivate (Group.members g))))
    end.
Proof.
  unfold removeMember. run_method.
  destruct (findMember userId (Group.members g)); [|reflexivity].
  destruct (existsb (debtInvolves userId) (Group.simplifyDebt g)); reflexivity.
Qed.

(** X2.  The guarded cases of removeMember: no record at all is rejected, a
    pending debt naming the user on either side blocks the removal, and a
    removal that goes through keeps every record and only clears the flag. *)
Lemma removeMember_guards (g : Group.t) (userId : string) :
  (~ In userId (map Member.userId (Group.members g)) ->
   removeMember userId g = (inl NotAMember, g)) /\
  (forall d, In userId (map Member.userId (Group.members g)) ->
             In d (Group.simplifyDebt g) -> Debt.status d = pending ->
             Party.userId (Debt.from d) = userId \/ Party.userId (Debt.to d) = userId ->
             removeMember userId g = (inl OutstandingDebt, g)) /\
  (oneRecordPerUser g -> fst (removeMember userId g) = inr tt ->
   map Member.userId (Group.members (snd (removeMember userId g)))
   = map Member.userId (Group.members g) /\
   ~ In userId (activeMemberIds (snd (removeMember userId g)))).
Proof.
  rewrite removeMember_run. split; [|split].
  - intro H. now rewrite (proj2 (findMember_None _ _) H).
  - intros d Hin Hd Hpending Hparty.
    destruct (findMember userId (Group.members g)) eqn:E;
      [|apply findMember_None in E; contradiction].
    replace (existsb (debtInvolves userId) (Group.simplifyDebt g)) with true; [reflexivity|].
    symmetry. apply existsb_exists. exists d. split; [exact Hd|].
    unfold debtInvolves. rewrite Hpending, andb_true_r. apply orb_true_iff.
    destruct Hparty as [<-|<-]; [left | right]; apply String.eqb_refl.
  - destruct (findMember userId (Group.members g)) as [m|] eqn:E; [|intros _; discriminate].
    destruct (existsb (debtInvolves userId) (Group.simplifyDebt g)); [intros _; discriminate|].
    intros Hnd _. unfold oneRecordPerUser in Hnd.
    simpl. split; [now apply updateFirst_ids|].
    unfold activeMemberIds. simpl. intro Hin.
    apply in_map_iff in Hin. destruct Hin as (m' & Hid & Hm').
    apply filter_In in Hm'. destruct Hm' as [Hm' Hact].
    assert (Hnd' : NoDup (map Member.userId (updateFirst userId deactivate (Group.members g))))
      by now rewrite updateFirst_ids.
    pose proof (updateFirst_found userId deactivate _ E) as Hdeact.
    destruct (findMember_Some _ _ E) as [_ Hmid].
    pose proof (findMember_unique _ m' Hnd' Hm' Hid) as H1.
    pose proof (findMember_unique _ (deactivate m) Hnd' Hdeact Hmid) as H2.
    rewrite H1 in H2. injection H2 as ->. discriminate.
Qed.

(** C6 at the input where the code departs from the claim: carol's record
    in [Scenario.Gleft] is inactive, so she has no active membership, and no
    debt names her; removeMember does not throw, it returns normally and
    leaves the record inactive. *)
Theorem removeMember_inactive_record :
  isActiveMemberId Scenario.Gleft Scenario.C = false /\
  Group.simplifyDebt Scenario.Gleft = [] /\
  fst (removeMember Scenario.C Scenario.Gleft) = inr tt /\
  map (fun m => (Member.username m, Member.isActive m))
      (Group.members (snd (removeMember Scenario.C Scenario.Gleft)))
  = [("alice", true); ("bob", true); ("carol", false)]%string.
Proof.
  repeat split; reflexivity.
Qed.

(** ** Removed members and the recomputation *)

(** X1.  Every debt a recomputation leaves runs between two active members: an
    id without an active membership has the balance [NaN] and is neither a
    creditor nor a debtor. *)
Lemma recomputed_parties_active (g : Group.t) :
  Forall (partiesActive g) (Group.simplifyDebt (snd (calculateDebts g))).
Proof.
  rewrite calculateDebts_debts.
  apply castFrom_Forall
    with (Pp := fun p => transferOk (activeMemberIds g) (Debt.p_currency p)
                                    (balancesIn g (Debt.p_currency p)) p).
  - intros n p (_ & _ & Hfrom & Hto & _). split; assumption.
  - apply recomputed_ok.
Qed.

(** C8 at the input where the code departs from the claim.  In
    [Scenario.G1left] alice paid 300 for alice, bob and carol; carol's debt
    was settled and carol removed.  The recomputation still walks the dinner,
    but carol's balance comes out as [NaN], not -100: the only debt is
    bob -> alice 100, carol is party to none, and 100 of alice's credit is
    matched by nobody. *)
Theorem removed_member_balance_is_NaN :
  fst (removeMember Scenario.C Scenario.G1settled) = inr tt /\
  isActiveMemberId Scenario.G1left Scenario.C = false /\
  map Expense.description (Group.billSplit Scenario.G1left) = ["dinner"%string] /\
  balancesIn Scenario.G1left "IDR"
  = [(Scenario.A, Num 200); (Scenario.B, Num (-100)); (Scenario.C, NaN)] /\
  map triple (Group.simplifyDebt (snd (calculateDebts Scenario.G1left)))
  = [(Scenario.B, Scenario.A, Num (10000 # 100))].
Proof.
  repeat split; reflexivity.
Qed.

(** ** The sum of the balances *)






















(** ** Further properties of the recomputation *)




(** The scenarios of the specification, run on the code.  After alice pays
    300 for three, bob and carol owe her 100 each.  After bob then pays 60
    for three, the balances are alice +180, bob -60, carol -120, and the
    two debts are carol -> alice 120 and bob -> alice 60.  Removing carol
    while her debt is pending is refused; once it is settled the removal
    goes through. *)
Example specification_scenarios :
  map triple (Group.simplifyDebt Scenario.G1)
  = [(Scenario.B, Scenario.A, Num (10000 # 100)); (Scenario.C, Scenario.A, Num (10000 # 100))] /\
  balancesIn Scenario.G2 "IDR"
  = [(Scenario.A, Num 180); (Scenario.B, Num (-60)); (Scenario.C, Num (-120))] /\
  map triple (Group.simplifyDebt Scenario.G2)
  = [(Scenario.C, Scenario.A, Num (12000 # 100)); (Scenario.B, Scenario.A, Num (6000 # 100))] /\
  removeMember Scenario.C Scenario.G1 = (inl OutstandingDebt, Scenario.G1) /\
  fst (removeMember Scenario.C Scenario.G1settled) = inr tt.
Proof.
  repeat split; reflexivity.
Qed.

(** ** Sorting by a whole-number key *)

Section KeyedSort.
Variable A : Type.
Variable key : A -> Z.
Variable cmp : A -> A -> Number.
Hypothesis cmp_key : forall a b, cmp a b = Num (inject_Z (key a - key b)).

Lemma cmp_gt (y x : A) : gt (cmp y x) (Num 0) = true <-> (key x < key y)%Z.
Proof.
  rewrite cmp_key. simpl. rewrite Qltb_lt.
  change 0%Q with (inject_Z 0). rewrite <- Zlt_Qlt. lia.
Qed.

Lemma cmp_not_gt (y x : A) : gt (cmp y x) (Num 0) = false <-> (key y <= key x)%Z.
Proof.
  pose proof (cmp_gt y x) as H. destruct (gt (cmp y x) (Num 0)).
  - split; [discriminate|]. intro Hle. assert (key x < key y)%Z by now apply H. lia.
  - split; [|reflexivity]. intros _.
    destruct (Z_lt_le_dec (key x) (key y)) as [Hlt|Hle]; [|exact Hle].
    apply H in Hlt. discriminate.
Qed.

Lemma insert_ascending (x : A) (l : list A) :
  ascendingBy key l -> ascendingBy key (insert cmp x l).
Proof.
  unfold ascendingBy. induction 1 as [|y l Hs IH Hall]; simpl.
  - constructor; constructor.
  - destruct (gt (cmp y x) (Num 0)) eqn:E.
    + apply cmp_gt in E. constructor; [now constructor|].
      constructor; [lia|]. eapply Forall_impl; [|exact Hall]. intros z Hz. simpl in Hz. lia.
    + apply cmp_not_gt in E. constructor; [exact IH|].
      eapply Permutation_Forall; [apply Permutation_sym, insert_perm|].
      constructor; assumption.
Qed.

Lemma sort_ascending (l : list A) : ascendingBy key (sort cmp l).
Proof.
  unfold sort.
  assert (H : forall acc, ascendingBy key acc ->
                          ascendingBy key (fold_left (fun acc x => insert cmp x acc) l acc)).
  { induction l as [|x l' IH]; intros acc Hacc; simpl; [exact Hacc|].
    apply IH, insert_ascending, Hacc. }
  apply H. constructor.
Qed.

Lemma insert_last (x : A) (l : list A) :
  Forall (fun y => (key y <= key x)%Z) l -> insert cmp x l = l ++ [x].
Proof.
  induction 1 as [|y l Hy _ IH]; simpl; [reflexivity|].
  rewrite (proj2 (cmp_not_gt y x) Hy). now rewrite IH.
Qed.



Lemma sort_acc_ascending (l : list A) :
  forall acc, ascendingBy key (acc ++ l) ->
              fold_left (fun acc x => insert cmp x acc) l acc = acc ++ l.
Proof.
  induction l as [|x l IH]; intros acc Hs; simpl; [now rewrite app_nil_r|].
  assert (Hlast : Forall (fun y => (key y <= key x)%Z) acc).
  { clear IH. induction acc as [|y acc IHacc]; [constructor|].
    simpl in Hs. inversion Hs as [|? ? Hs' Hall]; subst.
    constructor; [|now apply IHacc].
    rewrite Forall_forall in Hall. apply Hall, in_or_app. right. now left. }
  rewrite (insert_last Hlast), IH; rewrite <- app_assoc; [reflexivity | exact Hs].
Qed.

(** Sorting a list that is already in order changes nothing. *)
Lemma sort_ascending_id (l : list A) : ascendingBy key l -> sort cmp l = l.
Proof. intro H. unfold sort. now rewrite (sort_acc_ascending l [] H). Qed.

End KeyedSort.

Lemma byDateDesc_key (a b : Expense.t) :
  byDateDesc a b = Num (inject_Z ((fun e => - Expense.date e) a - (fun e => - Expense.date e) b)%Z).
Proof. unfold byDateDesc. do 2 f_equal. lia. Qed.


Lemma newestFirst_ascending (es : list Expense.t) :
  newestFirst es <-> ascendingBy (fun e => (- Expense.date e)%Z) es.
Proof.
  unfold newestFirst, ascendingBy. split; intro H;
    (induction H as [|e es Hs IH Hall]; constructor; [exact IH|]);
    (eapply Forall_impl; [|exact Hall]); intros x Hx; simpl in *; lia.
Qed.

(** ** The pre-save hook *)

Lemma preSave_newestFirst (g : Group.t) : newestFirst (Group.billSplit (preSave g)).
Proof.
  apply newestFirst_ascending. unfold preSave. simpl.
  apply (@sort_ascending _ _ _ byDateDesc_key).
Qed.

Lemma preSave_sorted_id (g : Group.t) : newestFirst (Group.billSplit g) -> preSave g = g.
Proof.
  intro H. apply newestFirst_ascending in H. unfold preSave.
  rewrite (@sort_ascending_id _ _ _ byDateDesc_key _ H). now destruct g.
Qed.

(** X10.  Saving twice is saving once: the pre-save hook leaves a document
    it has already ordered exactly as it is, and a document whose ledger is
    newest first is not changed by it at all. *)
Theorem preSave_idempotent (g : Group.t) :
  preSave (preSave g) = preSave g /\
  (newestFirst (Group.billSplit g) -> preSave g = g).
Proof.
  split; [|apply preSave_sorted_id].
  apply preSave_sorted_id, preSave_newestFirst.
Qed.

Lemma settleDebt_run (debtId : nat) (settledBy : string) (now : Z) (g : Group.t) :
  settleDebt debtId settledBy now g
  = match findDebt debtId (Group.simplifyDebt g) with
    | None => (inl DebtNotFound, g)
    | Some debt =>
        if isPending debt
        then (inr tt,
              preSave (Group.withSimplifyDebt g
                         (updateDebt debtId (settle now settledBy) (Group.simplifyDebt g))))
        else (inl AlreadySettled, g)
    end.
Proof.
  unfold settleDebt, isPending. run_method.
  destruct (findDebt debtId (Group.simplifyDebt g)) as [d|]; [|reflexivity].
  destruct (Debt.status d); reflexivity.
Qed.

Lemma addMember_saved (g : Group.t) (userId username : string) (role : option Role) (now : Z) :
  fst (addMember userId username role now g) = inr tt ->
  exists g0, snd (addMember userId username role now g) = preSave g0.
Proof.
  unfold addMember. run_method.
  destruct (findMember userId (Group.members g)) as [m|].
  - destruct (Member.isActive m); simpl; [discriminate|]. intros _. eexists. reflexivity.
  - destruct (Z.of_nat (memberCount g) >=? Group.maxMembers g)%Z; simpl; [discriminate|].
    intros _. eexists. reflexivity.
Qed.

(** X9.  Whenever addExpense, addMember, removeMember or settleDebt returns
    normally, and after the recalculation handler, the ledger of the
    document is ordered newest first. *)
Theorem saved_ledger_newest_first (g : Group.t) :
  (forall description amount currency paidBy paidByUsername splitBetween category
          receiptUrl notes now,
      let run := addExpense description amount currency paidBy paidByUsername
                            splitBetween category receiptUrl notes now g in
      fst run = inr tt -> newestFirst (Group.billSplit (snd run))) /\
  (forall userId username role now,
      let run := addMember userId username role now g in
      fst run = inr tt -> newestFirst (Group.billSplit (snd run))) /\
  (forall userId,
      let run := removeMember userId g in
      fst run = inr tt -> newestFirst (Group.billSplit (snd run))) /\
  (forall debtId settledBy now,
      let run := settleDebt debtId settledBy now g in
      fst run = inr tt -> newestFirst (Group.billSplit (snd run))) /\
  newestFirst (Group.billSplit (snd (calculateGroupDebts g))).
Proof.
  repeat split.
  - intros. subst run. rewrite addExpense_run in *.
    destruct (expenseChecks g currency splitBetween amount); [discriminate|].
    apply preSave_newestFirst.
  - intros userId username role now run Hok.
    destruct (addMember_saved _ _ _ _ _ Hok) as [g0 Hg0]. subst run. rewrite Hg0.
    apply preSave_newestFirst.
  - intros userId run Hok. subst run. rewrite removeMember_run in *.
    destruct (findMember userId (Group.members g)); [|discriminate].
    destruct (existsb (debtInvolves userId) (Group.simplifyDebt g)); [discriminate|].
    apply preSave_newestFirst.
  - intros debtId settledBy now run Hok. subst run. rewrite settleDebt_run in *.
    destruct (findDebt debtId (Group.simplifyDebt g)) as [d|]; [|discriminate].
    destruct (isPending d); [|discriminate]. apply preSave_newestFirst.
  - unfold calculateGroupDebts. run_method. rewrite calculateDebts_run.
    apply preSave_newestFirst.
Qed.




(** ** Who pays whom *)

Lemma recomputed_roles (g : Group.t) :
  Forall (fun d =>
            isDebtor (balancesIn g (Debt.currency d)) (Party.userId (Debt.from d)) = true /\
            isCreditor (balancesIn g (Debt.currency d)) (Party.userId (Debt.to d)) = true)
         (Group.simplifyDebt (snd (calculateDebts g))).
Proof.
  rewrite calculateDebts_debts.
  apply castFrom_Forall
    with (Pp := fun p => transferOk (activeMemberIds g) (Debt.p_currency p)
                                    (balancesIn g (Debt.p_currency p)) p).
  - intros n p (_ & _ & _ & _ & Hfrom & Hto). split; assumption.
  - apply recomputed_ok.
Qed.

(** X4.  After calculateDebts nobody both pays and receives in one
    currency: the payer of a debt is never the receiver of a debt in the
    same currency.  In particular no debt runs from a member to themselves,
    no two debts run in opposite directions between the same two members,
    and no member merely passes money on. *)
Theorem debtor_never_creditor (g : Group.t) (currency : string) :
  let debts := debtsIn (snd (calculateDebts g)) currency in
  Forall (fun d1 =>
            Forall (fun d2 => Party.userId (Debt.from d1) <> Party.userId (Debt.to d2)) debts)
         debts.
Proof.
  intro debts. pose proof (recomputed_roles g) as Hroles.
  rewrite Forall_forall in Hroles.
  assert (Hin : forall d, In d debts ->
                          In d (Group.simplifyDebt (snd (calculateDebts g))) /\
                          Debt.currency d = currency).
  { intros d Hd. unfold debts, debtsIn in Hd. apply filter_In in Hd.
    destruct Hd as [Hd Hc]. split; [exact Hd | now apply String.eqb_eq]. }
  apply Forall_forall. intros d1 H1. apply Forall_forall. intros d2 H2 Heq.
  destruct (Hin d1 H1) as [Hd1 Hc1]. destruct (Hin d2 H2) as [Hd2 Hc2].
  destruct (Hroles d1 Hd1) as [Hdebtor _]. destruct (Hroles d2 Hd2) as [_ Hcreditor].
  rewrite Hc1 in Hdebtor. rewrite Hc2 in Hcreditor. rewrite <- Heq in Hcreditor.
  rewrite (creditor_not_debtor _ _ Hcreditor) in Hdebtor. discriminate.
Qed.

Lemma sweep_pairs (currency : string) (fuel : nat) :
  forall cs ds,
    Forall numericEntry cs -> Forall numericEntry ds ->
    NoDup (map Entry.userId cs) -> NoDup (map Entry.userId ds) ->
    length cs + length ds <= fuel ->
    forall debts, sweep fuel currency cs ds = Some debts ->
                  NoDup (map plainParties debts).
Proof.
  induction fuel as [|fuel IH]; intros cs ds Hcs Hds Hndc Hndd Hfuel debts Hrun.
  - destruct cs; [|simpl in Hfuel; lia]. simpl in Hrun. injection Hrun as <-. constructor.
  - destruct cs as [|c cs]; [simpl in Hrun; injection Hrun as <-; constructor|].
    destruct ds as [|d ds]; [simpl in Hrun; injection Hrun as <-; constructor|].
    inversion Hcs as [|? ? [a Ha] Hcs']; subst.
    inversion Hds as [|? ? [b Hb] Hds']; subst.
    inversion Hndc as [|? ? Hcfresh Hndc']; subst.
    inversion Hndd as [|? ? Hdfresh Hndd']; subst.
    simpl in Hfuel. cbn [sweep] in Hrun.
    set (settle := min (Entry.amount c) (Entry.amount d)) in *.
    set (c' := Entry.withAmount c (sub (Entry.amount c) settle)) in *.
    set (d' := Entry.withAmount d (sub (Entry.amount d) settle)) in *.
    set (cs' := if lt (Entry.amount c') tolerance then cs else c' :: cs) in *.
    set (ds' := if lt (Entry.amount d') tolerance then ds else d' :: ds) in *.
    set (pushed := if gt settle tolerance then [debtObject currency d c settle] else []) in *.
    assert (Hc' : numericEntry c')
      by (unfold c', settle; rewrite Ha, Hb; eexists; reflexivity).
    assert (Hd' : numericEntry d')
      by (unfold d', settle; rewrite Ha, Hb; eexists; reflexivity).
    assert (Hadv : lt (Entry.amount c') tolerance = true \/ lt (Entry.amount d') tolerance = true).
    { unfold c', d', settle. rewrite Ha, Hb. apply (sub_min_settles a b). }
    assert (Hcs'' : Forall numericEntry cs')
      by (unfold cs'; destruct (lt (Entry.amount c') tolerance); auto).
    assert (Hds'' : Forall numericEntry ds')
      by (unfold ds'; destruct (lt (Entry.amount d') tolerance); auto).
    assert (Hlen : length cs' + length ds' <= fuel).
    { unfold cs', ds'. destruct Hadv as [E|E]; rewrite E;
        [destruct (lt (Entry.amount d') tolerance) | destruct (lt (Entry.amount c') tolerance)];
        simpl; lia. }
    assert (Hndc'' : NoDup (map Entry.userId cs')).
    { unfold cs'. destruct (lt (Entry.amount c') tolerance); [exact Hndc'|].
      simpl. now constructor. }
    assert (Hndd'' : NoDup (map Entry.userId ds')).
    { unfold ds'. destruct (lt (Entry.amount d') tolerance); [exact Hndd'|].
      simpl. now constructor. }
    assert (Hfresh : forall p, sweepDebtOk currency cs' ds' p ->
                               plainParties p <> (Entry.userId d, Entry.userId c)).
    { intros p (_ & _ & Hfrom & Hto) Heq. unfold plainParties in Heq.
      injection Heq as Hf Ht. rewrite Hf in Hfrom. rewrite Ht in Hto.
      destruct Hadv as [E|E].
      - unfold cs' in Hto. rewrite E in Hto. contradiction.
      - unfold ds' in Hfrom. rewrite E in Hfrom. contradiction. }
    destruct (sweep_total currency Hcs'' Hds'' Hlen) as (rest & Hrest & _ & Hok).
    pose proof (IH cs' ds' Hcs'' Hds'' Hndc'' Hndd'' Hlen rest Hrest) as Hnd.
    clearbody cs' ds'. rewrite Hrest in Hrun. simpl in Hrun. injection Hrun as <-.
    rewrite map_app. unfold pushed. destruct (gt settle tolerance); simpl; [|exact Hnd].
    constructor; [|exact Hnd]. intro Hin. apply in_map_iff in Hin.
    destruct Hin as (p & Hp & Hpin). rewrite Forall_forall in Hok.
    apply (Hfresh p (Hok p Hpin)). exact Hp.
Qed.

Lemma NoDup_filter {A : Type} (f : A -> bool) (l : list A) : NoDup l -> NoDup (filter f l).
Proof.
  induction 1 as [|x l Hx _ IH]; simpl; [constructor|].
  destruct (f x); [|exact IH]. constructor; [|exact IH].
  intro H. apply filter_In in H. tauto.
Qed.

Lemma transfers_pairs (g : Group.t) (currency : string) (bal : Obj Number)
    (debts : list Debt.plain) :
  balancesOk (activeMemberIds g) bal ->
  transfers g currency bal = inr debts -> NoDup (map plainParties debts).
Proof.
  intros [Hnd Hact]. unfold transfers, creditorsOf, debtorsOf.
  destruct (entries_total g (fun b => b) (isCreditor bal) Hact (isCreditor_numeric bal)
              (fun n H => H)) as (cs & -> & Hcs).
  destruct (entries_total g abs (isDebtor bal) Hact (isDebtor_numeric bal) abs_numeric)
    as (ds & -> & Hds).
  apply Forall2_entryFor in Hcs. destruct Hcs as (_ & Hcid & Hcnum).
  apply Forall2_entryFor in Hds. destruct Hds as (_ & Hdid & Hdnum).
  destruct (sweep (length (sort byAmountDesc cs) + length (sort byAmountDesc ds)) currency
                  (sort byAmountDesc cs) (sort byAmountDesc ds)) as [r|] eqn:E;
    [|discriminate].
  intros [= <-].
  apply (@sweep_pairs currency
           (length (sort byAmountDesc cs) + length (sort byAmountDesc ds))
           (sort byAmountDesc cs) (sort byAmountDesc ds));
    [apply sort_Forall, Hcnum | apply sort_Forall, Hdnum | | | apply le_n | exact E].
  - eapply Permutation_NoDup; [apply Permutation_map, Permutation_sym, sort_perm|].
    rewrite Hcid. now apply NoDup_filter.
  - eapply Permutation_NoDup; [apply Permutation_map, Permutation_sym, sort_perm|].
    rewrite Hdid. now apply NoDup_filter.
Qed.

(** X5.  After calculateDebts there is at most one debt per ordered pair of
    members in each currency: the (from, to) pairs of a currency's debts are
    all different. *)
Theorem recomputed_pairs_distinct (g : Group.t) (currency : string) :
  NoDup (map parties (debtsIn (snd (calculateDebts g)) currency)).
Proof.
  assert (Hmap : map parties (debtsIn (snd (calculateDebts g)) currency)
                 = map plainParties (transfersOrNil g (currency, balancesIn g currency))).
  { unfold debtsIn. rewrite calculateDebts_debts, <- recomputed_currency.
    apply castFrom_filter_map; reflexivity. }
  rewrite Hmap. unfold transfersOrNil. simpl.
  destruct (transfers g currency (balancesIn g currency)) as [|debts] eqn:E; [constructor|].
  eapply transfers_pairs; [apply balancesIn_ok | exact E].
Qed.

(** ** Settling *)

Lemma findDebt_Some (debtId : nat) (ds : list Debt.t) (d : Debt.t) :
  findDebt debtId ds = Some d -> In d ds /\ Debt._id d = debtId.
Proof.
  unfold findDebt. intro H. apply find_some in H. destruct H as [Hin Heq].
  split; [exact Hin | now apply Nat.eqb_eq].
Qed.

Lemma updateDebt_map {B : Type} (h : Debt.t -> B) (debtId : nat) (f : Debt.t -> Debt.t)
    (ds : list Debt.t) :
  (forall d, h (f d) = h d) -> map h (updateDebt debtId f ds) = map h ds.
Proof.
  intro Hf. induction ds as [|d ds IH]; simpl; [reflexivity|].
  destruct (Nat.eqb (Debt._id d) debtId); simpl; [now rewrite Hf | now rewrite IH].
Qed.

Lemma updateDebt_found (debtId : nat) (f : Debt.t -> Debt.t) (ds : list Debt.t) (d : Debt.t) :
  (forall x, Debt._id (f x) = Debt._id x) ->
  findDebt debtId ds = Some d ->
  In (f d) (updateDebt debtId f ds) /\ findDebt debtId (updateDebt debtId f ds) = Some (f d).
Proof.
  intro Hid. unfold findDebt. induction ds as [|d0 ds IH]; simpl; [discriminate|].
  destruct (Nat.eqb (Debt._id d0) debtId) eqn:E.
  - intros [= ->]. simpl. rewrite Hid, E. split; [now left | reflexivity].
  - intro H. simpl. rewrite E. destruct (IH H) as [Hin Hfind]. split; [now right | exact Hfind].
Qed.

Lemma updateDebt_others (debtId : nat) (f : Debt.t -> Debt.t) (ds : list Debt.t) (d : Debt.t) :
  In d ds -> Debt._id d <> debtId -> In d (updateDebt debtId f ds).
Proof.
  induction ds as [|d0 ds IH]; simpl; [tauto|].
  intros [->|Hin] Hne.
  - apply Nat.eqb_neq in Hne. rewrite Hne. now left.
  - destruct (Nat.eqb (Debt._id d0) debtId); right; auto.
Qed.

Lemma updateDebt_In (debtId : nat) (f : Debt.t -> Debt.t) (ds : list Debt.t) (d' : Debt.t) :
  NoDup (map Debt._id ds) -> In d' (updateDebt debtId f ds) ->
  (exists d, findDebt debtId ds = Some d /\ d' = f d) \/ (In d' ds /\ Debt._id d' <> debtId).
Proof.
  unfold findDebt. induction ds as [|d0 ds IH]; simpl; [tauto|].
  intros Hnd Hin. inversion Hnd as [|? ? Hfresh Hnd']; subst.
  destruct (Nat.eqb (Debt._id d0) debtId) eqn:E.
  - apply Nat.eqb_eq in E. destruct Hin as [<-|Hin]; [left; eauto|].
    right. split; [now right|]. intro Heq. apply Hfresh. rewrite E, <- Heq. now apply in_map.
  - apply Nat.eqb_neq in E. destruct Hin as [<-|Hin]; [right; split; [now left | exact E]|].
    destruct (IH Hnd' Hin) as [Hfound | [Hin' Hne]]; [now left | right; split; [now right | exact Hne]].
Qed.

(** X6.  settleDebt throws 'Debt not found' when no debt has the id, and
    'Debt is already settled' when the debt found is not pending (settled
    or disputed), leaving the document untouched.  Otherwise it marks that
    debt settled with the actor and the time and changes nothing else about
    the debts: same ids, same parties and amounts, same currencies, every
    other debt as it was, the members as they were.  Settling the same id
    again then fails with 'Debt is already settled'. *)
Theorem settleDebt_spec (g : Group.t) (debtId : nat) (settledBy : string) (now : Z) :
  let run := settleDebt debtId settledBy now g in
  (findDebt debtId (Group.simplifyDebt g) = None -> run = (inl DebtNotFound, g)) /\
  (forall d, findDebt debtId (Group.simplifyDebt g) = Some d -> Debt.status d <> pending ->
             run = (inl AlreadySettled, g)) /\
  (forall d, findDebt debtId (Group.simplifyDebt g) = Some d -> Debt.status d = pending ->
             fst run = inr tt /\
             In (settle now settledBy d) (Group.simplifyDebt (snd run)) /\
             debtIds (snd run) = debtIds g /\
             map triple (Group.simplifyDebt (snd run)) = map triple (Group.simplifyDebt g) /\
             map Debt.currency (Group.simplifyDebt (snd run))
             = map Debt.currency (Group.simplifyDebt g) /\
             (forall d', In d' (Group.simplifyDebt g) -> Debt._id d' <> debtId ->
                         In d' (Group.simplifyDebt (snd run))) /\
             Group.members (snd run) = Group.members g /\
             forall settledBy' now',
               fst (settleDebt debtId settledBy' now' (snd run)) = inl AlreadySettled).
Proof.
  intro run. subst run. rewrite settleDebt_run. split; [|split].
  - intros ->. reflexivity.
  - intros d -> Hstatus. unfold isPending. destruct (Debt.status d); congruence.
  - intros d Hfind Hstatus. rewrite Hfind. unfold isPending. rewrite Hstatus. simpl.
    destruct (updateDebt_found debtId (settle now settledBy) (Group.simplifyDebt g)
                (fun x => eq_refl) Hfind) as [Hin Hfind'].
    split; [reflexivity|]. split; [exact Hin|].
    split; [unfold debtIds; simpl; now apply updateDebt_map|].
    split; [now apply updateDebt_map|]. split; [now apply updateDebt_map|].
    split; [intros d' Hd' Hne; now apply updateDebt_others|].
    split; [reflexivity|].
    intros settledBy' now'. rewrite settleDebt_run. simpl Group.simplifyDebt.
    rewrite Hfind'. reflexivity.
Qed.

Lemma castFrom_ids (ps : list Debt.plain) :
  forall n, map Debt._id (castFrom n ps) = seq n (length ps).
Proof.
  induction ps as [|p ps IH]; intro n; simpl; [reflexivity|]. now rewrite IH.
Qed.

Lemma calculateDebts_ids (g : Group.t) : NoDup (debtIds (snd (calculateDebts g))).
Proof.
  unfold debtIds. rewrite calculateDebts_debts, castFrom_ids. apply seq_NoDup.
Qed.

(** A removal that goes through, in a group with one record per user,
    leaves the user without an active membership. *)
Lemma removeMember_deactivates (g : Group.t) (userId : string) :
  oneRecordPerUser g -> fst (removeMember userId g) = inr tt ->
  ~ In userId (activeMemberIds (snd (removeMember userId g))).
Proof.
  rewrite removeMember_run. unfold oneRecordPerUser.
  destruct (findMember userId (Group.members g)) as [m|] eqn:E; [|intros _; discriminate].
  destruct (existsb (debtInvolves userId) (Group.simplifyDebt g)); [intros _; discriminate|].
  intros Hnd _. unfold activeMemberIds. simpl. intro Hin.
  apply in_map_iff in Hin. destruct Hin as (m' & Hid & Hm').
  apply filter_In in Hm'. destruct Hm' as [Hm' Hact].
  assert (Hnd' : NoDup (map Member.userId (updateFirst userId deactivate (Group.members g))))
    by now rewrite updateFirst_ids.
  pose proof (updateFirst_found userId deactivate _ E) as Hdeact.
  destruct (findMember_Some _ _ E) as [_ Hmid].
  pose proof (findMember_unique _ m' Hnd' Hm' Hid) as H1.
  pose proof (findMember_unique _ (deactivate m) Hnd' Hdeact Hmid) as H2.
  rewrite H1 in H2. injection H2 as ->. discriminate.
Qed.

(** X7.  When the debts have distinct ids and the one pending debt that
    names a member is settled, that member (who has a membership record) can
    be removed: removeMember returns normally right after settleDebt and the
    member is no longer active. *)
Theorem settle_then_remove (g : Group.t) (userId : string) (debtId : nat)
    (settledBy : string) (now : Z) :
  oneRecordPerUser g ->
  NoDup (debtIds g) ->
  In userId (map Member.userId (Group.members g)) ->
  (forall d, In d (Group.simplifyDebt g) -> debtInvolves userId d = true ->
             Debt._id d = debtId) ->
  let settled := settleDebt debtId settledBy now g in
  fst settled = inr tt ->
  fst (removeMember userId (snd settled)) = inr tt /\
  ~ In userId (activeMemberIds (snd (removeMember userId (snd settled)))).
Proof.
  intros Hone Hnd Hrec Honly settled Hok.
  subst settled. rewrite settleDebt_run in *.
  destruct (findDebt debtId (Group.simplifyDebt g)) as [d|] eqn:Hfind; [|discriminate].
  destruct (isPending d); [|discriminate]. simpl snd.
  set (g' := preSave _).
  assert (Hrun : fst (removeMember userId g') = inr tt).
  { rewrite removeMember_run. unfold g'. simpl Group.members. simpl Group.simplifyDebt.
    destruct (findMember userId (Group.members g)) eqn:E;
      [|apply findMember_None in E; contradiction].
    replace (existsb (debtInvolves userId)
               (updateDebt debtId (settle now settledBy) (Group.simplifyDebt g)))
      with false; [reflexivity|].
    symmetry. apply not_true_is_false. intro Hex. apply existsb_exists in Hex.
    destruct Hex as (d' & Hin & Hinv).
    destruct (@updateDebt_In debtId (settle now settledBy) _ d' Hnd Hin)
      as [(d0 & _ & ->) | [Hin' Hne]].
    - unfold debtInvolves in Hinv. simpl in Hinv. now rewrite andb_false_r in Hinv.
    - apply Hne, (Honly d' Hin' Hinv). }
  split; [exact Hrun|].
  apply removeMember_deactivates; [exact Hone | exact Hrun].
Qed.

(** X7 at a concrete group: in [Scenario.G1] carol's only debt has id 1;
    once it is settled she can be removed. *)
Lemma settle_then_remove_witness :
  fst (removeMember Scenario.C (snd (settleDebt 1 Scenario.A 15 Scenario.G1))) = inr tt.
Proof.
  assert (H1 : oneRecordPerUser Scenario.G1).
  { unfold oneRecordPerUser. vm_compute.
    repeat (constructor; [simpl; intuition discriminate|]). constructor. }
  assert (H2 : NoDup (debtIds Scenario.G1)).
  { vm_compute. repeat (constructor; [simpl; intuition discriminate|]). constructor. }
  assert (H3 : In Scenario.C (map Member.userId (Group.members Scenario.G1)))
    by (vm_compute; tauto).
  assert (H4 : forall d, In d (Group.simplifyDebt Scenario.G1) ->
                         debtInvolves Scenario.C d = true -> Debt._id d = 1).
  { intros d Hd. vm_compute in Hd. destruct Hd as [<-|[<-|[]]]; [discriminate | reflexivity]. }
  apply (@settle_then_remove Scenario.G1 Scenario.C 1 Scenario.A 15%Z H1 H2 H3 H4 eq_refl).
Defined.

(** ** The per-currency totals *)

Lemma keys_set_iff {V : Type} (o : Obj V) (c : string) (v : V) (k : string) :
  In k (keys (set o c v)) <-> In k (keys o) \/ k = c.
Proof.
  destruct (in_dec string_dec c (keys o)) as [Hin|Hnotin].
  - rewrite keys_set_present by assumption. split; [tauto|]. intros [H| ->]; assumption.
  - rewrite keys_set_absent by assumption. rewrite in_app_iff. simpl. intuition.
Qed.

Lemma addToTotals_keys (totals : Obj Number) (c : string) (a : Number) (k : string) :
  In k (keys (addToTotals totals c a)) <-> In k (keys totals) \/ k = c.
Proof.
  unfold addToTotals. rewrite keys_set_iff.
  destruct (falsy (get totals c)); [rewrite keys_set_iff|]; tauto.
Qed.



Section Totals.
Variable A : Type.
Variable currencyOf : A -> string.
Variable amountOf : A -> Number.

Let step (totals : Obj Number) (item : A) : Obj Number :=
  addToTotals totals (currencyOf item) (amountOf item).

Lemma totals_keys (items : list A) :
  forall totals k,
    In k (keys (fold_left step items totals)) <->
    In k (keys totals) \/ In k (map currencyOf items).
Proof.
  induction items as [|item items IH]; intros totals k; simpl; [tauto|].
  rewrite IH. unfold step. rewrite addToTotals_keys. intuition.
Qed.



End Totals.





(** ** Outstanding debts and the deletion guard *)



Lemma existsb_nonempty_keys (g : Group.t) :
  hasOutstandingDebts g = true <-> filter isPending (Group.simplifyDebt g) <> [].
Proof.
  unfold hasOutstandingDebts. induction (Group.simplifyDebt g) as [|d ds IH]; simpl.
  - split; [discriminate | congruence].
  - destruct (isPending d); simpl; [split; [discriminate | reflexivity]|exact IH].
Qed.

(** X16.  The deleteGroup guard fires exactly when
    outstandingDebtsByCurrency lists some currency.  When it does not fire,
    every member with a record can be removed; and right after a
    recomputation it fires exactly when there is any debt at all. *)
Theorem delete_guard (g : Group.t) :
  (hasOutstandingDebts g = true <-> outstandingDebtsByCurrency g <> []) /\
  (hasOutstandingDebts g = false ->
   forall userId, In userId (map Member.userId (Group.members g)) ->
                  fst (removeMember userId g) = inr tt) /\
  (hasOutstandingDebts (snd (calculateDebts g)) = true <->
   Group.simplifyDebt (snd (calculateDebts g)) <> []).
Proof.
  split; [|split].
  - rewrite existsb_nonempty_keys.
    assert (Hkeys : forall k, In k (keys (outstandingDebtsByCurrency g)) <->
                              In k (map Debt.currency (filter isPending (Group.simplifyDebt g)))).
    { intro k. unfold outstandingDebtsByCurrency.
      rewrite (totals_keys Debt.currency Debt.amount). simpl. tauto. }
    destruct (filter isPending (Group.simplifyDebt g)) as [|d ds] eqn:E.
    + split; [congruence|]. intro Hne. exfalso.
      destruct (outstandingDebtsByCurrency g) as [|[k v] o]; [congruence|].
      apply (proj1 (Hkeys k)). now left.
    + split; [|congruence]. intros _ Hnil.
      assert (Hin : In (Debt.currency d) (keys (outstandingDebtsByCurrency g)))
        by (apply Hkeys; now left).
      rewrite Hnil in Hin. destruct Hin.
  - intros Hnone userId Hrec. rewrite removeMember_run.
    destruct (findMember userId (Group.members g)) eqn:E;
      [|apply findMember_None in E; contradiction].
    replace (existsb (debtInvolves userId) (Group.simplifyDebt g)) with false; [reflexivity|].
    symmetry. apply not_true_is_false. intro Hex. apply existsb_exists in Hex.
    destruct Hex as (d & Hd & Hinv).
    assert (Hp : hasOutstandingDebts g = true).
    { apply existsb_exists. exists d. split; [exact Hd|].
      unfold debtInvolves in Hinv. apply andb_true_iff in Hinv. apply Hinv. }
    congruence.
  - pose proof (recomputed_unsettled g) as Hall.
    unfold hasOutstandingDebts.
    destruct (Group.simplifyDebt (snd (calculateDebts g))) as [|d ds]; simpl.
    + split; [discriminate | congruence].
    + inversion Hall as [|? ? (Hp & _) _]; subst. unfold isPending. rewrite Hp. simpl.
      split; [discriminate | reflexivity].
Qed.

(** ** Counting members *)

Lemma count_updateFirst (userId : string) (f : Member.t -> Member.t) (ms : list Member.t)
    (m : Member.t) :
  findMember userId ms = Some m ->
  length (filter Member.isActive (updateFirst userId f ms))
  + (if Member.isActive m then 1 else 0)
  = length (filter Member.isActive ms) + (if Member.isActive (f m) then 1 else 0).
Proof.
  unfold findMember. induction ms as [|m0 ms IH]; simpl; [discriminate|].
  destruct (String.eqb (Member.userId m0) userId).
  - intros [= ->]. simpl. destruct (Member.isActive m), (Member.isActive (f m)); simpl; lia.
  - intro H. simpl. destruct (Member.isActive m0); simpl; rewrite <- (IH H); lia.
Qed.

Lemma addMember_count (g : Group.t) (userId username : string) (role : option Role)
    (now : Z) :
  fst (addMember userId username role now g) = inr tt ->
  memberCount (snd (addMember userId username role now g)) = S (memberCount g).
Proof.
  unfold addMember. run_method.
  destruct (findMember userId (Group.members g)) as [m|] eqn:Hfind.
  - destruct (Member.isActive m) eqn:Hact; simpl; [discriminate|]. intros _.
    unfold memberCount. simpl.
    pose proof (count_updateFirst userId (reactivate now) _ Hfind) as H.
    rewrite Hact in H. simpl in H. lia.
  - destruct (Z.of_nat (memberCount g) >=? Group.maxMembers g)%Z; simpl; [discriminate|].
    intros _. unfold memberCount. simpl. rewrite filter_app, length_app. simpl. lia.
Qed.

(** X17.  Every addMember that returns normally raises the active member
    count by exactly one, whether it appended a record or reactivated one.
    A removeMember that returns normally lowers it by one when the record
    it found was active and leaves it alone when the record was already
    inactive. *)
Theorem member_count_accounting (g : Group.t) :
  (forall userId username role now,
      let run := addMember userId username role now g in
      fst run = inr tt -> memberCount (snd run) = S (memberCount g)) /\
  (forall userId m,
      let run := removeMember userId g in
      findMember userId (Group.members g) = Some m -> fst run = inr tt ->
      memberCount (snd run) + (if Member.isActive m then 1 else 0) = memberCount g).
Proof.
  split.
  - intros userId username role now run. subst run. apply addMember_count.
  - intros userId m run Hfind. subst run. rewrite removeMember_run, Hfind.
    destruct (existsb (debtInvolves userId) (Group.simplifyDebt g)); [discriminate|].
    intros _. unfold memberCount. simpl.
    pose proof (count_updateFirst userId deactivate _ Hfind) as H. simpl in H. lia.
Qed.



(** ** What the methods leave alone *)

(** X19.  addExpense never touches the members or the settings, and with
    autoSimplifyDebts off it leaves the debt list exactly as it was: debts
    computed from an earlier ledger stay, settled ones included. *)
Theorem addExpense_frame (g : Group.t) (description : string) (amount : Number)
    (currency paidBy paidByUsername : string) (splitBetween : list Split.t)
    (category receiptUrl notes : option string) (now : Z) :
  let run := addExpense description amount currency paidBy paidByUsername splitBetween
                        category receiptUrl notes now g in
  Group.members (snd run) = Group.members g /\
  Group.defaultCurrency (snd run) = Group.defaultCurrency g /\
  Group.allowMultipleCurrencies (snd run) = Group.allowMultipleCurrencies g /\
  Group.autoSimplifyDebts (snd run) = Group.autoSimplifyDebts g /\
  Group.maxMembers (snd run) = Group.maxMembers g /\
  (Group.autoSimplifyDebts g = false ->
   Group.simplifyDebt (snd run) = Group.simplifyDebt g).
Proof.
  intro run. subst run. rewrite addExpense_run.
  destruct (expenseChecks g currency splitBetween amount); simpl; [tauto|].
  unfold withExpense.
  destruct (Group.autoSimplifyDebts g) eqn:Hauto.
  - rewrite calculateDebts_run, fold_pushDebt. simpl. repeat split; auto. discriminate.
  - simpl. repeat split; auto.
Qed.




(** ** Whole-number ledgers: the debts settle the balances *)

Lemma whole_small (z : Z) : (inject_Z z < 1 # 100)%Q -> (z <= 0)%Z.
Proof.
  intro H. destruct (Z_le_gt_dec z 0) as [Hle|Hgt]; [exact Hle|].
  assert (Hq : (inject_Z 1 <= inject_Z z)%Q) by (rewrite <- Zle_Qle; lia).
  change (inject_Z 1) with 1%Q in Hq. lra.
Qed.























(** ** Whole-number ledgers stay whole *)














(** ** A balance is what the member paid less what the member owes *)












